(** * hasha: hashing on the calling thread and through a lazily created worker

    A shallow embedding of [index.js]: the synchronous path ([hasha]),
    the worker body (its [handlers] table and its message listener with the
    error encoder), the caller-side listener with [recreateWorkerError],
    the dispatcher [taskWorker] with the task registry, and
    [hasha.fromStream].

    What the module obtains from the runtime is kept apart from what it
    computes itself: the hashing primitive ([crypto.createHash]), the file
    source, string conversion and the less common text encodings are the
    fields of the class [Runtime]; the UTF-8 encoder, the hex encoder and
    SHA-512 are written out, so that the documented examples can be
    evaluated. *)

From Stdlib Require Import ZArith Lia List String Ascii.
From stdpp Require Import gmap strings list fin_maps pretty.

Local Open Scope Z_scope.

(** ** Bytes, hex and UTF-8 *)

Abbreviation byte := Byte.byte.
Abbreviation bytes := (list Byte.byte).

Definition byte_of_Z (z : Z) : byte :=
  match Byte.of_N (Z.to_N (z mod 256)) with
  | Some b => b
  | None => Byte.x00
  end.

Definition Z_of_byte (b : byte) : Z := Z.of_N (Byte.to_N b).

Definition hex_digit (z : Z) : ascii :=
  if z <? 10 then ascii_of_N (Z.to_N (48 + z))
  else ascii_of_N (Z.to_N (87 + z)).

(** [buffer.toString('hex')]: two lower-case digits per byte. *)
Fixpoint hex (bs : bytes) : string :=
  match bs with
  | [] => EmptyString
  | b :: rest =>
      String (hex_digit (Z_of_byte b / 16))
        (String (hex_digit (Z_of_byte b mod 16)) (hex rest))
  end.

(** A JavaScript string is a sequence of UTF-16 code units. *)
Abbreviation jsstring := (list Z).

Definition is_high_surrogate (u : Z) : bool := (55296 <=? u) && (u <=? 56319).
Definition is_low_surrogate (u : Z) : bool := (56320 <=? u) && (u <=? 57343).

Definition utf8_scalar (c : Z) : bytes :=
  if c <? 128 then [byte_of_Z c]
  else if c <? 2048 then
    [byte_of_Z (Z.lor 192 (Z.shiftr c 6));
     byte_of_Z (Z.lor 128 (Z.land c 63))]
  else if c <? 65536 then
    [byte_of_Z (Z.lor 224 (Z.shiftr c 12));
     byte_of_Z (Z.lor 128 (Z.land (Z.shiftr c 6) 63));
     byte_of_Z (Z.lor 128 (Z.land c 63))]
  else
    [byte_of_Z (Z.lor 240 (Z.shiftr c 18));
     byte_of_Z (Z.lor 128 (Z.land (Z.shiftr c 12) 63));
     byte_of_Z (Z.lor 128 (Z.land (Z.shiftr c 6) 63));
     byte_of_Z (Z.lor 128 (Z.land c 63))].

(** The encoding the runtime applies to a string handed to [hash.update]
    with input encoding ['utf8']: a surrogate pair is one scalar value, a
    surrogate on its own is written as U+FFFD. *)
Fixpoint utf8 (s : jsstring) : bytes :=
  match s with
  | [] => []
  | u :: rest =>
      if is_high_surrogate u then
        match rest with
        | v :: rest' =>
            if is_low_surrogate v then
              utf8_scalar (65536 + Z.shiftl (u - 55296) 10 + (v - 56320))
                ++ utf8 rest'
            else utf8_scalar 65533 ++ utf8 rest
        | [] => utf8_scalar 65533
        end
      else if is_low_surrogate u then utf8_scalar 65533 ++ utf8 rest
      else utf8_scalar u ++ utf8 rest
  end.

(** Cutting [s1 ++ s2] between [s1] and [s2] separates the two halves of
    a surrogate pair. *)
Definition ends_high (s : jsstring) : bool :=
  match last s with
  | Some u => is_high_surrogate u
  | None => false
  end.

Definition starts_low (s : jsstring) : bool :=
  match s with
  | v :: _ => is_low_surrogate v
  | [] => false
  end.

Definition splits_pair (s1 s2 : jsstring) : bool := ends_high s1 && starts_low s2.

(** The code units of an ASCII literal. *)
Definition js (s : string) : jsstring :=
  map (fun a => Z.of_N (N_of_ascii a)) (list_ascii_of_string s).

(** ** SHA-512 (FIPS 180-4) over 64-bit words held in [Z] *)

Module SHA512.

Definition w64 : Z := 2 ^ 64.
Definition add64 (a b : Z) : Z := (a + b) mod w64.
Definition rotr (n x : Z) : Z :=
  Z.lor (Z.shiftr x n) (Z.shiftl x (64 - n) mod w64).

Definition Ch (x y z : Z) : Z :=
  Z.lxor (Z.land x y) (Z.land (Z.lxor x (w64 - 1)) z).
Definition Maj (x y z : Z) : Z :=
  Z.lxor (Z.lxor (Z.land x y) (Z.land x z)) (Z.land y z).
Definition Sigma0 (x : Z) : Z := Z.lxor (Z.lxor (rotr 28 x) (rotr 34 x)) (rotr 39 x).
Definition Sigma1 (x : Z) : Z := Z.lxor (Z.lxor (rotr 14 x) (rotr 18 x)) (rotr 41 x).
Definition sigma0 (x : Z) : Z := Z.lxor (Z.lxor (rotr 1 x) (rotr 8 x)) (Z.shiftr x 7).
Definition sigma1 (x : Z) : Z := Z.lxor (Z.lxor (rotr 19 x) (rotr 61 x)) (Z.shiftr x 6).

Definition K : list Z :=
  [0x428a2f98d728ae22; 0x7137449123ef65cd; 0xb5c0fbcfec4d3b2f; 0xe9b5dba58189dbbc;
   0x3956c25bf348b538; 0x59f111f1b605d019; 0x923f82a4af194f9b; 0xab1c5ed5da6d8118;
   0xd807aa98a3030242; 0x12835b0145706fbe; 0x243185be4ee4b28c; 0x550c7dc3d5ffb4e2;
   0x72be5d74f27b896f; 0x80deb1fe3b1696b1; 0x9bdc06a725c71235; 0xc19bf174cf692694;
   0xe49b69c19ef14ad2; 0xefbe4786384f25e3; 0x0fc19dc68b8cd5b5; 0x240ca1cc77ac9c65;
   0x2de92c6f592b0275; 0x4a7484aa6ea6e483; 0x5cb0a9dcbd41fbd4; 0x76f988da831153b5;
   0x983e5152ee66dfab; 0xa831c66d2db43210; 0xb00327c898fb213f; 0xbf597fc7beef0ee4;
   0xc6e00bf33da88fc2; 0xd5a79147930aa725; 0x06ca6351e003826f; 0x142929670a0e6e70;
   0x27b70a8546d22ffc; 0x2e1b21385c26c926; 0x4d2c6dfc5ac42aed; 0x53380d139d95b3df;
   0x650a73548baf63de; 0x766a0abb3c77b2a8; 0x81c2c92e47edaee6; 0x92722c851482353b;
   0xa2bfe8a14cf10364; 0xa81a664bbc423001; 0xc24b8b70d0f89791; 0xc76c51a30654be30;
   0xd192e819d6ef5218; 0xd69906245565a910; 0xf40e35855771202a; 0x106aa07032bbd1b8;
   0x19a4c116b8d2d0c8; 0x1e376c085141ab53; 0x2748774cdf8eeb99; 0x34b0bcb5e19b48a8;
   0x391c0cb3c5c95a63; 0x4ed8aa4ae3418acb; 0x5b9cca4f7763e373; 0x682e6ff3d6b2b8a3;
   0x748f82ee5defb2fc; 0x78a5636f43172f60; 0x84c87814a1f0ab72; 0x8cc702081a6439ec;
   0x90befffa23631e28; 0xa4506cebde82bde9; 0xbef9a3f7b2c67915; 0xc67178f2e372532b;
   0xca273eceea26619c; 0xd186b8c721c0c207; 0xeada7dd6cde0eb1e; 0xf57d4f7fee6ed178;
   0x06f067aa72176fba; 0x0a637dc5a2c898a6; 0x113f9804bef90dae; 0x1b710b35131c471b;
   0x28db77f523047d84; 0x32caab7b40c72493; 0x3c9ebe0a15c9bebc; 0x431d67c49c100d4c;
   0x4cc5d4becb3e42b6; 0x597f299cfc657e2a; 0x5fcb6fab3ad6faec; 0x6c44198c4a475817].

Definition H0 : list Z :=
  [0x6a09e667f3bcc908; 0xbb67ae8584caa73b; 0x3c6ef372fe94f82b; 0xa54ff53a5f1d36f1;
   0x510e527fade682d1; 0x9b05688c2b3e6c1f; 0x1f83d9abfb41bd6b; 0x5be0cd19137e2179].

(** Big-endian conversions. *)
Definition word_of_bytes (bs : bytes) : Z :=
  fold_left (fun acc b => acc * 256 + Z_of_byte b) bs 0.

Fixpoint bytes_of_word (n : nat) (w : Z) : bytes :=
  match n with
  | O => []
  | S n' => bytes_of_word n' (w / 256) ++ [byte_of_Z w]
  end.

(** Split into groups of [k] elements; [fuel] bounds the number of groups. *)
Fixpoint chunks {A} (fuel k : nat) (l : list A) : list (list A) :=
  match fuel, l with
  | O, _ | _, [] => []
  | S fuel', _ => firstn k l :: chunks fuel' k (skipn k l)
  end.

(** The message followed by 0x80, zero bytes up to 112 modulo 128, and
    the bit length on 16 bytes. *)
Definition pad (msg : bytes) : bytes :=
  let len := Z.of_nat (length msg) in
  let zeros := Z.to_nat ((111 - len) mod 128) in
  msg ++ [Byte.x80] ++ repeat Byte.x00 zeros ++ bytes_of_word 16 (8 * len).

(** The message schedule, most recent word first. *)
Fixpoint schedule (n : nat) (rev_w : list Z) : list Z :=
  match n with
  | O => rev_w
  | S n' =>
      let w :=
        add64 (add64 (sigma1 (nth 1 rev_w 0)) (nth 6 rev_w 0))
              (add64 (sigma0 (nth 14 rev_w 0)) (nth 15 rev_w 0)) in
      schedule n' (w :: rev_w)
  end.

Record regs := Regs { ra : Z; rb : Z; rc : Z; rd : Z; re : Z; rf : Z; rg : Z; rh : Z }.

Definition round (r : regs) (kw : Z * Z) : regs :=
  let t1 := add64 (add64 (add64 (rh r) (Sigma1 (re r))) (Ch (re r) (rf r) (rg r)))
                  (add64 (fst kw) (snd kw)) in
  let t2 := add64 (Sigma0 (ra r)) (Maj (ra r) (rb r) (rc r)) in
  Regs (add64 t1 t2) (ra r) (rb r) (rc r) (add64 (rd r) t1) (re r) (rf r) (rg r).

Definition regs_of (h : list Z) : regs :=
  Regs (nth 0 h 0) (nth 1 h 0) (nth 2 h 0) (nth 3 h 0)
       (nth 4 h 0) (nth 5 h 0) (nth 6 h 0) (nth 7 h 0).

Definition list_of (r : regs) : list Z :=
  [ra r; rb r; rc r; rd r; re r; rf r; rg r; rh r].

Definition compress (h : list Z) (block : bytes) : list Z :=
  let w16 := map word_of_bytes (chunks 16 8 block) in
  let w := rev (schedule 64 (rev w16)) in
  let r := fold_left round (combine K w) (regs_of h) in
  map (fun p => add64 (fst p) (snd p)) (combine h (list_of r)).

Definition digest (msg : bytes) : bytes :=
  let padded := pad msg in
  let h := fold_left compress (chunks (length padded) 128 padded) H0 in
  concat (map (bytes_of_word 8) h).

End SHA512.

Local Close Scope Z_scope.

(** ** JavaScript values and objects *)

(** The values found in the fields of an error object. A number is one of
    the integers that error fields hold ([errno], a status code); a
    composite value (object, array, nested error) is a reference. *)
Inductive value :=
| VUndefined
| VNull
| VBool (b : bool)
| VNum (n : Z)
| VStr (s : string)
| VBigInt (n : Z)
| VObject (ref : nat).

Inductive jstype := TUndefined | TObject | TBoolean | TNumber | TString | TBigInt.

(** [typeof value]; [typeof null] is ['object']. *)
Definition typeof (v : value) : jstype :=
  match v with
  | VUndefined => TUndefined
  | VNull => TObject
  | VBool _ => TBoolean
  | VNum _ => TNumber
  | VStr _ => TString
  | VBigInt _ => TBigInt
  | VObject _ => TObject
  end.

(** The scalar values: strings, numbers and booleans. *)
Definition scalar (v : value) : bool :=
  match v with
  | VStr _ | VNum _ | VBool _ => true
  | _ => false
  end.

#[global] Instance value_eq_dec : EqDecision value.
Proof. solve_decision. Defined.
#[global] Instance jstype_eq_dec : EqDecision jstype.
Proof. solve_decision. Defined.

Inductive proto := ObjectProto | ErrorProto | TypeErrorProto.

#[global] Instance proto_eq_dec : EqDecision proto.
Proof. solve_decision. Defined.

(** An own property: its value and whether [Object.entries] lists it. *)
Record prop := MkProp { pvalue : value; enumerable : bool }.

Record object := Obj { oproto : proto; oprops : gmap string prop }.

(** What a property read finds on the prototype when there is no own
    property of that name. *)
Definition proto_get (p : proto) (key : string) : value :=
  match p with
  | ObjectProto => VUndefined
  | ErrorProto =>
      if decide (key = "message") then VStr ""
      else if decide (key = "name") then VStr "Error" else VUndefined
  | TypeErrorProto =>
      if decide (key = "message") then VStr ""
      else if decide (key = "name") then VStr "TypeError" else VUndefined
  end.

(** [o[key]] *)
Definition get_prop (o : object) (key : string) : value :=
  match oprops o !! key with
  | Some p => pvalue p
  | None => proto_get (oproto o) key
  end.

(** [o[key] = v]: an existing own property keeps its attributes, a new one
    is enumerable. *)
Definition set_prop (o : object) (key : string) (v : value) : object :=
  match oprops o !! key with
  | Some p => Obj (oproto o) (<[key := MkProp v (enumerable p)]> (oprops o))
  | None => Obj (oproto o) (<[key := MkProp v true]> (oprops o))
  end.

(** [Object.entries(o)]: the own enumerable properties. *)
Definition entries (o : object) : list (string * value) :=
  omap (fun kp => if enumerable kp.2 then Some (kp.1, pvalue kp.2) else None)
       (map_to_list (oprops o)).

(** [o] has an own enumerable field [key] holding [v]. *)
Definition own_field (o : object) (key : string) (v : value) : Prop :=
  oprops o !! key = Some (MkProp v true).

(** The body of a loop [for (const [key, value] of ...)] that performs
    [acc[key] = value] under a condition on the entry. *)
Definition assign_if (P : string * value -> Prop) `{forall kv, Decision (P kv)}
    (acc : object) (kv : string * value) : object :=
  if decide (P kv) then set_prop acc kv.1 kv.2 else acc.

(** ** Inputs, options, digests, streams *)

(** One piece of input: a string or a buffer. *)
Inductive part := PStr (s : jsstring) | PBuf (b : bytes).

(** The input of [hasha]: an array of parts ([Array.isArray]) or one part. *)
Inductive input := Single (p : part) | Parts (ps : list part).

(** The options object; [None] is a missing ([undefined]) property. *)
Record options := Options { algorithm : option string; encoding : option string }.

(** A digest as returned to the caller: a buffer or a text. *)
Inductive digest := DBuffer (b : bytes) | DText (s : string).

(** A readable source: the chunks it delivers, then ['end'] ([None]) or
    ['error'] with an error object. *)
Record stream := Stream { stream_chunks : list bytes; stream_error : option object }.

(** The argument of [hasha.fromStream]; [isStream] tells the two apart. *)
Inductive stream_arg := AStream (src : stream) | ANotStream (v : value).


(** [o || d] on an optional string: [undefined] and [''] are falsy. *)
Definition or_else (o : option string) (d : string) : string :=
  match o with
  | Some s => if decide (s = "") then d else s
  | None => d
  end.

(** A destructuring default [{name = d}]: used for [undefined] only. *)
Definition default_to (o : option string) (d : string) : string :=
  match o with
  | Some s => s
  | None => d
  end.

(** ** Messages, tasks and the state of the module *)

(** [args] of a request: [[algorithm, input]] or [[algorithm, filePath]]. *)
Record args := Args { arg_algorithm : string; arg_data : input }.

Record request := Request { req_id : nat; req_method : string; req_args : args }.

(** A response carries [value] or [error]. *)
Inductive payload := RValue (v : bytes) | RError (e : object).

Record response := Response { res_id : nat; res_payload : payload }.

(** A registry entry [{resolve, reject}]: the two callbacks of one promise. *)
Record task := Task { task_promise : nat }.

Inductive settlement := Resolved (v : bytes) | Rejected (e : object).

(** The module-level variables [worker], [taskIdCounter] and [tasks], the
    two message queues between the threads, and what is observed from
    outside: the callback invocations [calls] (promise, settlement), the
    number of workers constructed, every request posted, and the uncaught
    exception that ended the process, if any. For [worker], [Some true] is a
    referenced worker and [Some false] an unreferenced one. *)
Record state := State {
  worker : option bool;
  taskIdCounter : nat;
  tasks : gmap nat task;
  inbox : list request;
  outbox : list response;
  calls : list (nat * settlement);
  created : nat;
  sent : list request;
  crashed : option object
}.

Definition initial : state := State None 0 ∅ [] [] [] 0 [] None.

(** ** The runtime the module runs on *)

Class Runtime := {
  (** string conversion, and the stack text recorded by an error constructor *)
  ToString : value -> string;
  captureStack : proto -> string -> string;
  (** [crypto.createHash]: a hasher, or the error thrown for the name *)
  hstate : Type;
  createHash : string -> hstate + object;
  hupdate : hstate -> bytes -> hstate;
  hdigest : hstate -> bytes;
  (** a string decoded with an input encoding other than ['utf8'] *)
  stringBytes : string -> jsstring -> bytes;
  (** [hash.digest(enc)] and [buffer.toString(enc)] for [enc] other than ['hex'] *)
  digestText : string -> bytes -> string;
  bufferText : string -> bytes -> string;
  (** [read()] on a finished hash stream after [setEncoding(enc)] *)
  readDigest : option string -> bytes -> digest;
  (** [fs.createReadStream] *)
  createReadStream : input -> stream
}.

Section Hasha.

Context `{Runtime}.

(** *** Error objects and the cross-boundary error codec *)

(** [new Error(message)] and [new TypeError(message)]: [message] and
    [stack] are own, non-enumerable properties; no [message] property is
    created for [undefined]. *)
Definition construct (p : proto) (message : value) : object :=
  match message with
  | VUndefined => Obj p {[ "stack" := MkProp (VStr (captureStack p "")) false ]}
  | _ =>
      let text := ToString message in
      Obj p (<["message" := MkProp (VStr text) false]>
               {[ "stack" := MkProp (VStr (captureStack p text)) false ]})
  end.

Definition new_Error (message : string) : object :=
  construct ErrorProto (VStr message).
Definition new_TypeError (message : string) : object :=
  construct TypeErrorProto (VStr message).

(** The [catch] branch of the worker's listener builds [newError]. *)
Definition encodeError (error : object) : object :=
  let newError :=
    Obj ObjectProto
        (<["message" := MkProp (get_prop error "message") true]>
           {[ "stack" := MkProp (get_prop error "stack") true ]}) in
  foldl (assign_if (fun kv => typeof kv.2 <> TObject)) newError (entries error).

Definition recreateWorkerError (sourceError : object) : object :=
  let error := construct ErrorProto (get_prop sourceError "message") in
  foldl (assign_if (fun kv => kv.1 <> "message")) error (entries sourceError).

(** *** The hashing primitive as the module calls it *)

(** [hash.update(data, inputEncoding)]: a string is decoded with the
    input encoding, ['utf8'] when none is given; a buffer is taken as it
    is. *)
Definition hash_update (hash : hstate) (data : part)
    (inputEncoding : option string) : hstate :=
  match data with
  | PBuf b => hupdate hash b
  | PStr s =>
      match inputEncoding with
      | None => hupdate hash (utf8 s)
      | Some enc =>
          if decide (enc = "utf8") then hupdate hash (utf8 s)
          else hupdate hash (stringBytes enc s)
      end
  end.

(** [hash.digest(outputEncoding)] *)
Definition hash_digest (hash : hstate) (outputEncoding : option string) : digest :=
  match outputEncoding with
  | None => DBuffer (hdigest hash)
  | Some enc =>
      if decide (enc = "hex") then DText (hex (hdigest hash))
      else DText (digestText enc (hdigest hash))
  end.

(** [Buffer.from(hash).toString(encoding)] *)
Definition buffer_toString (b : bytes) (enc : string) : string :=
  if decide (enc = "hex") then hex b else bufferText enc b.

(** *** The synchronous path *)

(** The inner [update] of [hasha]. *)
Definition update (hash : hstate) (buffer : part) : hstate :=
  let inputEncoding :=
    match buffer with
    | PStr _ => Some "utf8"
    | PBuf _ => None
    end in
  hash_update hash buffer inputEncoding.

(** [hasha(input, options)]: the digest, or the error thrown. *)
Definition hasha (input : input) (options : options) : digest + object :=
  let outputEncoding := or_else (encoding options) "hex" in
  let outputEncoding :=
    if decide (outputEncoding = "buffer") then None else Some outputEncoding in
  match createHash (or_else (algorithm options) "sha512") with
  | inr e => inr e
  | inl hash =>
      let hash :=
        match input with
        | Parts parts => fold_left update parts hash
        | Single p => update hash p
        end in
      inl (hash_digest hash outputEncoding)
  end.

(** [hasha.stream(options)]: the hash stream and the encoding set on it. *)
Definition hasha_stream (options : options) : (hstate * option string) + object :=
  let outputEncoding := or_else (encoding options) "hex" in
  let outputEncoding :=
    if decide (outputEncoding = "buffer") then None else Some outputEncoding in
  match createHash (or_else (algorithm options) "sha512") with
  | inr e => inr e
  | inl stream => inl (stream, outputEncoding)
  end.

(** [hasha.fromStream(stream, options)]: how the returned promise is
    settled, [inl] fulfilled and [inr] rejected. The first case is the
    guard [!isStream(stream)]. Otherwise the source is piped into the hash
    stream chunk by chunk; ['finish'] resolves with what the hash stream
    reads, an ['error'] of the source rejects. *)
Definition fromStream (stream : stream_arg) (options : options) : digest + object :=
  match stream with
  | ANotStream _ => inr (new_TypeError "Expected a stream")
  | AStream src =>
      match hasha_stream options with
      | inr e => inr e
      | inl (hash, outputEncoding) =>
          match stream_error src with
          | Some e => inr e
          | None =>
              inl (readDigest outputEncoding
                     (hdigest (fold_left hupdate (stream_chunks src) hash)))
          end
      end
  end.

(** *** The worker body *)

Definition handler_hashFile (algorithm : string) (filePath : input) : bytes + object :=
  match createHash algorithm with
  | inr e => inr e
  | inl hasher =>
      let src := createReadStream filePath in
      match stream_error src with
      | Some e => inr e
      | None => inl (hdigest (fold_left hupdate (stream_chunks src) hasher))
      end
  end.

Definition handler_hash (algorithm : string) (input : input) : bytes + object :=
  match createHash algorithm with
  | inr e => inr e
  | inl hasher =>
      let hasher :=
        match input with
        | Parts parts =>
            fold_left (fun hasher part => hash_update hasher part None) parts hasher
        | Single p => hash_update hasher p None
        end in
      inl (hdigest hasher)
  end.

(** [handlers[method]] *)
Definition handlers (method : string) : option (string -> input -> bytes + object) :=
  if decide (method = "hashFile") then Some handler_hashFile
  else if decide (method = "hash") then Some handler_hash
  else None.

(** The worker's ['message'] listener: the response it posts. *)
Definition worker_onMessage (message : request) : response :=
  match handlers (req_method message) with
  | None =>
      let error := new_Error ("Unknown method '" ++ req_method message ++ "'") in
      Response (req_id message) (RError (encodeError error))
  | Some handler =>
      match handler (arg_algorithm (req_args message)) (arg_data (req_args message)) with
      | inl value => Response (req_id message) (RValue value)
      | inr error => Response (req_id message) (RError (encodeError error))
      end
  end.

(** *** The caller's side: listener, worker creation, dispatcher *)

(** [worker.ref()] and [worker.unref()] *)
Definition ref (w : option bool) : option bool :=
  match w with
  | Some _ => Some true
  | None => None
  end.

Definition unref (w : option bool) : option bool :=
  match w with
  | Some _ => Some false
  | None => None
  end.

(** The ['message'] listener installed by [createWorker]: the state it
    leaves, and the exception it throws, if any. *)
Definition onMessage (message : response) (s : state) : state * option object :=
  let task := tasks s !! res_id message in
  let tasks' := delete (res_id message) (tasks s) in
  let worker' := if decide (size tasks' = 0) then unref (worker s) else worker s in
  let after (calls' : list (nat * settlement)) :=
    State worker' (taskIdCounter s) tasks' (inbox s) (outbox s) calls'
          (created s) (sent s) (crashed s) in
  match res_payload message, task with
  | RValue v, Some task =>
      (after (calls s ++ [(task_promise task, Resolved v)]), None)
  | RError e, Some task =>
      (after (calls s ++ [(task_promise task, Rejected (recreateWorkerError e))]), None)
  | RValue _, None =>
      (after (calls s),
       Some (new_TypeError "Cannot read property 'resolve' of undefined"))
  | RError _, None =>
      (after (calls s),
       Some (new_TypeError "Cannot read property 'reject' of undefined"))
  end.

(** [createWorker()]: a new worker is referenced. *)
Definition createWorker (s : state) : state :=
  State (Some true) (taskIdCounter s) (tasks s) (inbox s) (outbox s) (calls s)
        (S (created s)) (sent s) (crashed s).

(** [taskWorker(method, args)]: the promise it returns is the one whose
    callbacks are stored under the new id. The arguments are strings and
    buffers, which [postMessage] can always clone. *)
Definition taskWorker (method : string) (args : args) (s : state) : state :=
  let id := taskIdCounter s in
  let s := State (worker s) (S id) (<[id := Task id]> (tasks s)) (inbox s)
                 (outbox s) (calls s) (created s) (sent s) (crashed s) in
  let s := match worker s with
           | None => createWorker s
           | Some _ => s
           end in
  let message := Request id method args in
  State (ref (worker s)) (taskIdCounter s) (tasks s) (inbox s ++ [message])
        (outbox s) (calls s) (created s) (sent s ++ [message]) (crashed s).

(** [hasha.async(input, options)] with worker threads: the request it
    dispatches, and what it makes of the settlement awaited. *)
Definition hasha_async_dispatch (input : input) (options : options) (s : state) : state :=
  taskWorker "hash" (Args (default_to (algorithm options) "sha512") input) s.

Definition hasha_async_result (options : options) (o : settlement) : digest + object :=
  let encoding := default_to (encoding options) "hex" in
  let encoding := if decide (encoding = "buffer") then None else Some encoding in
  match o with
  | Rejected e => inr e
  | Resolved hash =>
      match encoding with
      | None => inl (DBuffer hash)
      | Some enc => inl (DText (buffer_toString hash enc))
      end
  end.

(** [hasha.fromFile(filePath, options)] with worker threads. *)
Definition hasha_fromFile_dispatch (filePath : input) (options : options) (s : state) : state :=
  taskWorker "hashFile" (Args (default_to (algorithm options) "sha512") filePath) s.

Definition hasha_fromFile_result (options : options) (o : settlement) : digest + object :=
  match o with
  | Rejected e => inr e
  | Resolved hash =>
      if decide (default_to (encoding options) "hex" = "buffer")
      then inl (DBuffer hash)
      else inl (DText (buffer_toString hash (default_to (encoding options) "hex")))
  end.

(** *** Executions *)

Definition with_queues (s : state) (i : list request) (o : list response) : state :=
  State (worker s) (taskIdCounter s) (tasks s) i o (calls s) (created s)
        (sent s) (crashed s).

Definition with_crashed (s : state) (e : option object) : state :=
  State (worker s) (taskIdCounter s) (tasks s) (inbox s) (outbox s) (calls s)
        (created s) (sent s) e.

(** The caller receives the next response. An exception that leaves the
    listener is uncaught. *)
Definition receive (message : response) (rest : list response) (s : state) : state :=
  let r := onMessage message (with_queues s (inbox s) rest) in
  with_crashed r.1 r.2.

(** One step of the system: a dispatch, the worker answering one of the
    requests it holds (completions need not follow arrival order), the
    caller receiving the next response, or the worker's ['error'] event,
    whose listener rethrows. Nothing happens after an uncaught exception. *)
Inductive step : state -> state -> Prop :=
| step_dispatch s method args :
    crashed s = None ->
    step s (taskWorker method args s)
| step_answer s before message after :
    crashed s = None ->
    inbox s = before ++ message :: after ->
    step s (with_queues s (before ++ after) (outbox s ++ [worker_onMessage message]))
| step_receive s message rest :
    crashed s = None ->
    outbox s = message :: rest ->
    step s (receive message rest s)
| step_fault s error :
    crashed s = None ->
    worker s <> None ->
    step s (with_crashed s (Some error)).

Definition reachable (s : state) : Prop := rtc step initial s.

(** A scheduler that lets the worker answer everything it holds and then
    lets the caller receive every response. *)
Definition answer_all (s : state) : state :=
  with_queues s [] (outbox s ++ map worker_onMessage (inbox s)).

Fixpoint receive_all (fuel : nat) (s : state) : state :=
  match fuel, outbox s, crashed s with
  | S fuel', message :: rest, None => receive_all fuel' (receive message rest s)
  | _, _, _ => s
  end.

Definition drain (s : state) : state :=
  let s := answer_all s in
  receive_all (length (outbox s)) s.

(** How often the callbacks of promise [id] have been invoked, and how
    many messages for task [id] are in flight. *)
Definition settled (s : state) (id : nat) : nat :=
  count_occ Nat.eq_dec (map fst (calls s)) id.

Definition in_flight (s : state) (id : nat) : nat :=
  count_occ Nat.eq_dec (map req_id (inbox s)) id +
  count_occ Nat.eq_dec (map res_id (outbox s)) id.

(** What the listener calls for a response. *)
Definition settlement_of (p : payload) : settlement :=
  match p with
  | RValue v => Resolved v
  | RError e => Rejected (recreateWorkerError e)
  end.

(** *** Vocabulary of the statements *)

(** The bytes a part, and an input, contribute to the hash. *)
Definition part_bytes (p : part) : bytes :=
  match p with
  | PStr s => utf8 s
  | PBuf b => b
  end.

Definition input_bytes (i : input) : bytes :=
  match i with
  | Single p => part_bytes p
  | Parts ps => concat (map part_bytes ps)
  end.

Definition supported (alg : string) : Prop :=
  exists hash, createHash alg = inl hash.

(** The contract of the hashing primitive: the digest depends on the
    bytes fed to the hasher, not on how they were cut into updates. *)
Definition streaming_hasher : Prop :=
  forall alg hash (c1 c2 : list bytes),
    createHash alg = inl hash ->
    concat c1 = concat c2 ->
    hdigest (fold_left hupdate c1 hash) = hdigest (fold_left hupdate c2 hash).

(** The primitive's ['sha512'] is SHA-512. *)
Definition implements_sha512 : Prop :=
  exists hash, createHash "sha512" = inl hash /\
    forall cs : list bytes,
      hdigest (fold_left hupdate cs hash) = SHA512.digest (concat cs).

(** What holds in every state the module can be in. *)
Record invariant (s : state) : Prop := {
  inv_count : forall id,
    in_flight s id + settled s id = if decide (id < taskIdCounter s) then 1 else 0;
  inv_tasks : forall id,
    tasks s !! id = if decide (in_flight s id = 0) then None else Some (Task id);
  inv_worker :
    worker s = if decide (taskIdCounter s = 0) then None
               else Some (bool_decide (tasks s <> ∅));
  inv_created :
    created s = if decide (taskIdCounter s = 0) then 0 else 1;
  inv_sent : map req_id (sent s) = seq 0 (taskIdCounter s);
  inv_inbox : forall m, m ∈ inbox s -> m ∈ sent s;
  inv_outbox : forall r, r ∈ outbox s ->
    exists m, m ∈ sent s /\ r = worker_onMessage m;
  inv_calls : forall id o, (id, o) ∈ calls s ->
    exists m, m ∈ sent s /\ req_id m = id /\
              o = settlement_of (res_payload (worker_onMessage m))
}.

End Hasha.

(** ** A runtime to evaluate the module on

    Its only algorithm is SHA-512; the hasher keeps the bytes it was fed
    and hashes them when the digest is asked for. No file can be opened. *)

Definition sample_ToString (v : value) : string :=
  match v with
  | VUndefined => "undefined"
  | VNull => "null"
  | VBool true => "true"
  | VBool false => "false"
  | VNum n => pretty n
  | VStr s => s
  | VBigInt n => pretty n
  | VObject _ => "[object Object]"
  end.

Definition sample_stack (p : proto) (message : string) : string :=
  match p with
  | TypeErrorProto => "TypeError: " ++ message
  | _ => "Error: " ++ message
  end.

Definition sample_error (message code : string) (errno : Z) : object :=
  Obj ErrorProto
      (<["message" := MkProp (VStr message) false]>
      (<["stack" := MkProp (VStr (sample_stack ErrorProto message)) false]>
      (<["code" := MkProp (VStr code) true]>
      (<["errno" := MkProp (VNum errno) true]> ∅)))).

(** An error with the fields [{message: "x", code: 42}], a field holding
    [null] and a field holding a nested object. *)
Definition example_error : object :=
  Obj ErrorProto
      (<["message" := MkProp (VStr "x") false]>
      (<["stack" := MkProp (VStr "Error: x") false]>
      (<["code" := MkProp (VNum 42) true]>
      (<["cause" := MkProp VNull true]>
      (<["inner" := MkProp (VObject 1) true]> ∅))))).

Definition sample_runtime : Runtime := {|
  ToString := sample_ToString;
  captureStack := sample_stack;
  hstate := bytes;
  createHash alg :=
    if decide (alg = "sha512") then inl []
    else inr (sample_error "Digest method not supported" "ERR_DIGEST" 0);
  hupdate acc b := acc ++ b;
  hdigest := SHA512.digest;
  stringBytes _ s := utf8 s;
  digestText _ b := hex b;
  bufferText _ b := hex b;
  readDigest enc b :=
    match enc with
    | None => DBuffer b
    | Some _ => DText (hex b)
    end;
  createReadStream _ :=
    Stream [] (Some (sample_error "ENOENT: no such file or directory" "ENOENT" (-2)))
|}.

(** [hasha.async("ab", {algorithm: "sha512", encoding: "buffer"})] as the
    first call, and the state once the worker has answered. *)
Definition example_request : request :=
  Request 0 "hash" (Args "sha512" (Single (PStr (js "ab")))).

Definition example_dispatched : state :=
  hasha_async_dispatch (Single (PStr (js "ab")))
    (Options (Some "sha512") (Some "buffer")) initial.

Definition example_answered : state :=
  answer_all (H := sample_runtime) example_dispatched.

(** ** The other entry points *)

Section EntryPoints.

Context `{Runtime}.

(** What [hasha.async(input, options)] returns with worker threads, once
    its task is settled with the worker's answer to its request. The id of
    the request plays no part in the answer. *)
Definition hasha_async_offloaded (input : input) (options : options) : digest + object :=
  hasha_async_result options
    (settlement_of (res_payload (worker_onMessage
       (Request 0 "hash" (Args (default_to (algorithm options) "sha512") input))))).

(** The same for [hasha.fromFile(filePath, options)]. *)
Definition hasha_fromFile_offloaded (filePath : input) (options : options) : digest + object :=
  hasha_fromFile_result options
    (settlement_of (res_payload (worker_onMessage
       (Request 0 "hashFile" (Args (default_to (algorithm options) "sha512") filePath))))).

(** Without worker threads: [hasha.fromFile] pipes the file into
    [hasha.fromStream], [hasha.async] calls [hasha]. *)
Definition hasha_fromFile_fallback (filePath : input) (options : options) : digest + object :=
  fromStream (AStream (createReadStream filePath)) options.

Definition hasha_async_fallback (input : input) (options : options) : digest + object :=
  hasha input options.

(** [fs.readFileSync] on the file system that [fs.createReadStream] reads:
    the whole content, or the error of the failed read. *)
Definition readFileSync (filePath : input) : bytes + object :=
  let src := createReadStream filePath in
  match stream_error src with
  | Some e => inr e
  | None => inl (concat (stream_chunks src))
  end.

(** [hasha.fromFileSync(filePath, options)] *)
Definition hasha_fromFileSync (filePath : input) (options : options) : digest + object :=
  match readFileSync filePath with
  | inr e => inr e
  | inl content => hasha (Single (PBuf content)) options
  end.

(** [buffer.toString(enc)] and [hash.digest(enc)] produce the same text. *)
Definition text_encoders_agree (enc : string) : Prop :=
  forall b, bufferText enc b = digestText enc b.

(** A finished hash stream with the text encoding [enc] set reads the
    digest in that encoding. *)
Definition stream_reads_text (enc : string) : Prop :=
  forall b, readDigest (Some enc) b = DText (buffer_toString b enc).

End EntryPoints.

(** The sample runtime with one file, delivered in two chunks under any
    path. *)
Definition file_runtime : Runtime := {|
  ToString := sample_ToString;
  captureStack := sample_stack;
  hstate := bytes;
  createHash alg :=
    if decide (alg = "sha512") then inl []
    else inr (sample_error "Digest method not supported" "ERR_DIGEST" 0);
  hupdate acc b := acc ++ b;
  hdigest := SHA512.digest;
  stringBytes _ s := utf8 s;
  digestText _ b := hex b;
  bufferText _ b := hex b;
  readDigest enc b :=
    match enc with
    | None => DBuffer b
    | Some _ => DText (hex b)
    end;
  createReadStream _ := Stream [utf8 (js "hel"); utf8 (js "lo")] None
|}.

(** * Properties *)

(** ** Objects *)

Lemma set_prop_lookup (o : object) (k k' : string) (v : value) :
  oprops (set_prop o k v) !! k' =
    if decide (k = k')
    then Some (MkProp v (match oprops o !! k with
                         | Some p => enumerable p
                         | None => true
                         end))
    else oprops o !! k'.
Proof.
  unfold set_prop.
  destruct (oprops o !! k) as [p|] eqn:E; simpl;
    rewrite lookup_insert; case_decide; done.
Qed.

Lemma set_prop_proto (o : object) (k : string) (v : value) :
  oproto (set_prop o k v) = oproto o.
Proof. unfold set_prop. by destruct (oprops o !! k). Qed.

Lemma entries_elem (o : object) (k : string) (v : value) :
  (k, v) ∈ entries o ↔ own_field o k v.
Proof.
  unfold entries, own_field. rewrite list_elem_of_omap. split.
  - intros [[k' [v' en]] [Hin Hf]]. simpl in Hf.
    destruct en; simplify_eq. by apply elem_of_map_to_list in Hin.
  - intros Hk. exists (k, MkProp v true). split; [|done].
    by apply elem_of_map_to_list.
Qed.

Lemma omap_keys_NoDup {A B} (f : string * A -> option (string * B))
    (l : list (string * A)) :
  (forall x y, f x = Some y -> y.1 = x.1) ->
  NoDup l.*1 -> NoDup (omap f l).*1.
Proof.
  intros Hf. induction l as [|x l IH]; simpl; [constructor|].
  inversion_clear 1 as [|? ? Hx Hl].
  destruct (f x) as [y|] eqn:E; [|by apply IH].
  simpl. constructor; [|by apply IH].
  rewrite (Hf _ _ E). intros Hin. apply Hx.
  apply list_elem_of_fmap in Hin as [z [-> Hz]].
  apply list_elem_of_omap in Hz as [w [Hw Hfw]].
  rewrite (Hf _ _ Hfw). apply list_elem_of_fmap. by exists w.
Qed.

Lemma entries_NoDup (o : object) : NoDup (entries o).*1.
Proof.
  apply omap_keys_NoDup; [|apply NoDup_fst_map_to_list].
  intros [k p] y. simpl. destruct (enumerable p); naive_solver.
Qed.

Section Assign.

Variable P : string * value -> Prop.
Context `{forall kv, Decision (P kv)}.

Lemma assign_miss (l : list (string * value)) (acc : object) (k : string) :
  (forall v, (k, v) ∈ l -> ~ P (k, v)) ->
  oprops (foldl (assign_if P) acc l) !! k = oprops acc !! k.
Proof.
  revert acc. induction l as [|[k' v'] l IH]; intros acc Hk; [done|].
  simpl. rewrite IH.
  - unfold assign_if. case_decide as HP; [|done]. simpl.
    rewrite set_prop_lookup. case_decide as Hkk; [|done].
    subst. exfalso. eapply Hk; [|done]. by left.
  - intros v Hv. apply Hk. by right.
Qed.

Lemma assign_hit (l : list (string * value)) (acc : object) (k : string) (v : value) :
  NoDup l.*1 -> (k, v) ∈ l -> P (k, v) ->
  oprops (foldl (assign_if P) acc l) !! k =
    Some (MkProp v (match oprops acc !! k with
                    | Some p => enumerable p
                    | None => true
                    end)).
Proof.
  revert acc. induction l as [|[k' v'] l IH]; intros acc Hnd Hin HP.
  - by apply elem_of_nil in Hin.
  - simpl in Hnd. inversion_clear Hnd as [|? ? Hk' Hl].
    apply elem_of_cons in Hin as [Heq|Hin].
    + inversion Heq; subst k' v'; clear Heq. simpl. rewrite assign_miss.
      * unfold assign_if. rewrite decide_True by done. simpl.
        rewrite set_prop_lookup. by rewrite decide_True.
      * intros w Hw. exfalso. apply Hk'.
        apply list_elem_of_fmap. by exists (k, w).
    + assert (k' <> k) as Hne.
      { intros ->. apply Hk'. apply list_elem_of_fmap. by exists (k, v). }
      simpl. rewrite IH by done. unfold assign_if.
      case_decide; [|done]. simpl. rewrite set_prop_lookup.
      by rewrite decide_False.
Qed.

Lemma assign_proto (l : list (string * value)) (acc : object) :
  oproto (foldl (assign_if P) acc l) = oproto acc.
Proof.
  revert acc. induction l as [|kv l IH]; intros acc; [done|].
  simpl. rewrite IH. unfold assign_if. case_decide; [|done].
  apply set_prop_proto.
Qed.

(** The loop over the entries of [src]. *)
Lemma assign_entries (src acc : object) (k : string) :
  oprops (foldl (assign_if P) acc (entries src)) !! k =
    match oprops src !! k with
    | Some (MkProp v true) =>
        if decide (P (k, v))
        then Some (MkProp v (match oprops acc !! k with
                             | Some p => enumerable p
                             | None => true
                             end))
        else oprops acc !! k
    | _ => oprops acc !! k
    end.
Proof.
  destruct (oprops src !! k) as [[v []]|] eqn:E.
  - case_decide as HP.
    + apply assign_hit; [apply entries_NoDup| |done]. by apply entries_elem.
    + apply assign_miss. intros w Hw. apply entries_elem in Hw.
      unfold own_field in Hw. by simplify_eq.
  - apply assign_miss. intros w Hw. apply entries_elem in Hw.
    unfold own_field in Hw. by simplify_eq.
  - apply assign_miss. intros w Hw. apply entries_elem in Hw.
    unfold own_field in Hw. by simplify_eq.
Qed.

End Assign.

(** ** The error codec *)

Section CodecProperties.

Context `{Runtime}.

Lemma construct_lookup (p : proto) (message : value) (k : string) :
  oprops (construct p message) !! k =
    if decide (k = "message")
    then match message with
         | VUndefined => None
         | _ => Some (MkProp (VStr (ToString message)) false)
         end
    else if decide (k = "stack")
    then Some (MkProp (VStr (captureStack p (match message with
                                             | VUndefined => ""
                                             | _ => ToString message
                                             end))) false)
    else None.
Proof.
  unfold construct.
  destruct message; simpl; repeat case_decide; subst;
    simplify_map_eq; done.
Qed.

(** The encoded error, field by field: a field of the error is copied
    when it is enumerable and not of type ['object']; [message] and
    [stack] are there in any case. *)
Lemma encodeError_lookup (e : object) (k : string) :
  oprops (encodeError e) !! k =
    let initial_fields : gmap string prop :=
      <["message" := MkProp (get_prop e "message") true]>
        {[ "stack" := MkProp (get_prop e "stack") true ]} in
    match oprops e !! k with
    | Some (MkProp v true) =>
        if decide (typeof v <> TObject) then Some (MkProp v true)
        else initial_fields !! k
    | _ => initial_fields !! k
    end.
Proof.
  unfold encodeError. rewrite assign_entries. simpl.
  destruct (oprops e !! k) as [[v []]|]; try done.
  case_decide; [|done]. f_equal. f_equal.
  destruct (decide (k = "message")) as [->|]; [by simplify_map_eq|].
  destruct (decide (k = "stack")) as [->|]; by simplify_map_eq.
Qed.

Lemma encodeError_enumerable (e : object) (k : string) (p : prop) :
  oprops (encodeError e) !! k = Some p -> enumerable p = true.
Proof.
  rewrite encodeError_lookup. simpl.
  destruct (oprops e !! k) as [[v []]|]; try case_decide;
    intros Hp;
    try (destruct (decide (k = "message")) as [->|];
         [|destruct (decide (k = "stack")) as [->|]]);
    simplify_map_eq; done.
Qed.

(** The recreated error, field by field. *)
Lemma recreateWorkerError_lookup (src : object) (k : string) :
  oprops (recreateWorkerError src) !! k =
    match oprops src !! k with
    | Some (MkProp v true) =>
        if decide (k = "message")
        then oprops (construct ErrorProto (get_prop src "message")) !! k
        else Some (MkProp v (if decide (k = "stack") then false else true))
    | _ => oprops (construct ErrorProto (get_prop src "message")) !! k
    end.
Proof.
  unfold recreateWorkerError. rewrite assign_entries. simpl.
  destruct (oprops src !! k) as [[v []]|]; try done.
  destruct (decide (k = "message")) as [->|Hk].
  - by rewrite decide_False by (intros ?; done).
  - rewrite decide_True by done. rewrite construct_lookup.
    rewrite decide_False by done. by case_decide.
Qed.

End CodecProperties.

Section CodecTheorems.

Context `{Runtime}.

Lemma encodeError_message (e : object) :
  get_prop (encodeError e) "message" = get_prop e "message".
Proof.
  unfold get_prop at 1. rewrite encodeError_lookup. simpl.
  unfold get_prop.
  destruct (oprops e !! "message") as [[v []]|] eqn:E;
    try case_decide; by simplify_map_eq.
Qed.



End CodecTheorems.



(** ** UTF-8 and SHA-512 *)

Lemma ends_high_cons (u v : Z) (s : jsstring) :
  ends_high (u :: v :: s) = ends_high (v :: s).
Proof. done. Qed.

Lemma utf8_cons (u : Z) (rest : jsstring) :
  utf8 (u :: rest) =
    if is_high_surrogate u then
      match rest with
      | v :: rest' =>
          if is_low_surrogate v then
            utf8_scalar (65536 + Z.shiftl (u - 55296) 10 + (v - 56320))
              ++ utf8 rest'
          else utf8_scalar 65533 ++ utf8 rest
      | [] => utf8_scalar 65533
      end
    else if is_low_surrogate u then utf8_scalar 65533 ++ utf8 rest
    else utf8_scalar u ++ utf8 rest.
Proof. done. Qed.

Lemma utf8_app_bounded (n : nat) (s1 s2 : jsstring) :
  length s1 <= n -> splits_pair s1 s2 = false ->
  utf8 (s1 ++ s2) = utf8 s1 ++ utf8 s2.
Proof.
  revert s1. induction n as [|n IH]; intros s1 Hlen Hsplit.
  - destruct s1; [done|simpl in Hlen; lia].
  - destruct s1 as [|u [|v rest]]; [done| |].
    + unfold splits_pair, ends_high in Hsplit. cbn [last] in Hsplit.
      cbn [utf8 app].
      destruct (is_high_surrogate u) eqn:Hu.
      * destruct s2 as [|w s2]; [by rewrite app_nil_r|].
        cbn [starts_low andb] in Hsplit. by rewrite Hsplit.
      * destruct (is_low_surrogate u); by rewrite app_nil_r.
    + unfold splits_pair in Hsplit. rewrite ends_high_cons in Hsplit.
      change ((u :: v :: rest) ++ s2) with (u :: v :: (rest ++ s2)).
      assert (utf8 ((v :: rest) ++ s2) = utf8 (v :: rest) ++ utf8 s2) as Htail.
      { apply IH; [simpl in *; lia|done]. }
      change ((v :: rest) ++ s2) with (v :: (rest ++ s2)) in Htail.
      assert (is_low_surrogate v = true ->
              utf8 (rest ++ s2) = utf8 rest ++ utf8 s2) as Hpair.
      { intros Hv. apply IH; [simpl in *; lia|].
        unfold splits_pair. destruct rest as [|w rest]; [done|].
        by rewrite ends_high_cons in Hsplit. }
      rewrite (utf8_cons u (v :: rest ++ s2)), (utf8_cons u (v :: rest)).
      cbv beta iota.
      destruct (is_high_surrogate u) eqn:Hu.
      * destruct (is_low_surrogate v) eqn:Hv.
        -- rewrite Hpair by done. by rewrite app_assoc.
        -- rewrite Htail. by rewrite app_assoc.
      * destruct (is_low_surrogate u); rewrite Htail; by rewrite app_assoc.
Qed.

(** Encoding distributes over a concatenation unless the cut separates a
    surrogate pair. *)
Lemma utf8_app (s1 s2 : jsstring) :
  splits_pair s1 s2 = false -> utf8 (s1 ++ s2) = utf8 s1 ++ utf8 s2.
Proof. by apply (utf8_app_bounded (length s1)). Qed.

(** The test vector ["abc"] of FIPS 180-4. *)
Lemma sha512_abc :
  hex (SHA512.digest (utf8 (js "abc"))) =
  "ddaf35a193617abacc417349ae20413112e6fa4e89a97ea20a9eeee64b55d39a2192992a274fc1a836ba3c23a3feebbd454d4423643ce80e2a9ac94fa54ca49f".
Proof. vm_compute. reflexivity. Qed.

(** ** Hashing *)

Lemma fold_left_app_concat {A} (cs : list (list A)) (acc : list A) :
  fold_left (fun a b => a ++ b) cs acc = acc ++ concat cs.
Proof.
  revert acc. induction cs as [|c cs IH]; intros acc; simpl.
  - by rewrite app_nil_r.
  - by rewrite IH, app_assoc.
Qed.

Lemma sample_runtime_streaming : streaming_hasher (H := sample_runtime).
Proof.
  intros alg hash c1 c2 _ Heq. simpl.
  by rewrite !fold_left_app_concat, Heq.
Qed.

Lemma sample_runtime_sha512 : implements_sha512 (H := sample_runtime).
Proof.
  exists []. split; [reflexivity|]. intros cs. simpl.
  by rewrite fold_left_app_concat.
Qed.

Section HashingProperties.

Context `{Runtime}.

Lemma update_bytes (hash : hstate) (p : part) :
  update hash p = hupdate hash (part_bytes p).
Proof. by destruct p. Qed.

Lemma hash_update_default (hash : hstate) (p : part) :
  hash_update hash p None = hupdate hash (part_bytes p).
Proof. by destruct p. Qed.

Lemma fold_update_bytes (ps : list part) (hash : hstate) :
  fold_left update ps hash = fold_left hupdate (map part_bytes ps) hash.
Proof.
  revert hash. induction ps as [|p ps IH]; intros hash; [done|].
  simpl. by rewrite IH, update_bytes.
Qed.

Lemma fold_hash_update_bytes (ps : list part) (hash : hstate) :
  fold_left (fun hasher part => hash_update hasher part None) ps hash
  = fold_left hupdate (map part_bytes ps) hash.
Proof.
  revert hash. induction ps as [|p ps IH]; intros hash; [done|].
  simpl. by rewrite IH, hash_update_default.
Qed.

Lemma hash_digest_ext (h1 h2 : hstate) (enc : option string) :
  hdigest h1 = hdigest h2 -> hash_digest h1 enc = hash_digest h2 enc.
Proof. intros Heq. unfold hash_digest. by rewrite Heq. Qed.

(** The updates [hasha] performs on an input. *)
Lemma hasha_updates (i : input) (hash : hstate) :
  match i with
  | Parts parts => fold_left update parts hash
  | Single p => update hash p
  end
  = fold_left hupdate (match i with
                       | Parts parts => map part_bytes parts
                       | Single p => [part_bytes p]
                       end) hash.
Proof. destruct i; simpl; [apply update_bytes|apply fold_update_bytes]. Qed.

Lemma input_bytes_chunks (i : input) :
  concat (match i with
          | Parts parts => map part_bytes parts
          | Single p => [part_bytes p]
          end) = input_bytes i.
Proof. destruct i; simpl; [apply app_nil_r|done]. Qed.

(** Inputs that contribute the same bytes have the same digest. *)
Lemma hasha_same_bytes (i1 i2 : input) (opts : options) :
  streaming_hasher ->
  input_bytes i1 = input_bytes i2 ->
  hasha i1 opts = hasha i2 opts.
Proof.
  intros Hstream Hbytes. unfold hasha.
  destruct (createHash (or_else (algorithm opts) "sha512")) as [hash|e] eqn:E;
    [|done].
  f_equal. apply hash_digest_ext. rewrite !hasha_updates.
  apply (Hstream _ _ _ _ E). by rewrite !input_bytes_chunks.
Qed.

(** X17. A string cut in two, not inside a surrogate pair, hashes like the
    whole string. *)
Lemma hasha_string_split (s1 s2 : jsstring) (opts : options) :
  streaming_hasher ->
  splits_pair s1 s2 = false ->
  hasha (Single (PStr (s1 ++ s2))) opts = hasha (Parts [PStr s1; PStr s2]) opts.
Proof.
  intros Hstream Hsplit. apply hasha_same_bytes; [done|].
  simpl. by rewrite utf8_app, app_nil_r.
Qed.



(** C10. An empty sequence of parts hashes like the empty string,
    whatever the options. *)
Theorem hasha_no_parts (opts : options) :
  streaming_hasher ->
  hasha (Parts []) opts = hasha (Single (PStr [])) opts.
Proof. intros Hstream. by apply hasha_same_bytes. Qed.

(** C7. Without options, [hasha("")] asks the primitive for ['sha512'],
    feeds it no byte and renders the digest in hex; when the primitive's
    ['sha512'] is SHA-512 the result is the digest [cf83e135...f927da3e]
    of the empty message. *)
Theorem hasha_empty_string_default :
  hasha (Single (PStr [])) (Options None None)
    = match createHash "sha512" with
      | inl hash => inl (DText (hex (hdigest (hupdate hash []))))
      | inr e => inr e
      end /\
  (implements_sha512 ->
   hasha (Single (PStr [])) (Options None None)
     = inl (DText "cf83e1357eefb8bdf1542850d66d8007d620e4050b5715dc83f4a921d36ce9ce47d0d13c5d85f2b0ff8318d2877eec2f63b931bd47417a81a538327af927da3e")).
Proof.
  assert (hasha (Single (PStr [])) (Options None None)
          = match createHash "sha512" with
            | inl hash => inl (DText (hex (hdigest (hupdate hash []))))
            | inr e => inr e
            end) as Hdef.
  { unfold hasha. simpl. by destruct (createHash "sha512"). }
  split; [exact Hdef|].
  intros (hash & Hcreate & Hsha). rewrite Hdef, Hcreate.
  change (hupdate hash []) with (fold_left hupdate [[]] hash).
  rewrite Hsha. vm_compute. reflexivity.
Qed.


End HashingProperties.


Lemma hasha_no_parts_sample :
  hasha (H := sample_runtime) (Parts []) (Options (Some "sha512") (Some "base64"))
  = hasha (H := sample_runtime) (Single (PStr []))
      (Options (Some "sha512") (Some "base64")).
Proof.
  apply (hasha_no_parts (H := sample_runtime)). exact sample_runtime_streaming.
Defined.

Lemma hasha_empty_string_sample :
  hasha (H := sample_runtime) (Single (PStr [])) (Options None None)
  = inl (DText "cf83e1357eefb8bdf1542850d66d8007d620e4050b5715dc83f4a921d36ce9ce47d0d13c5d85f2b0ff8318d2877eec2f63b931bd47417a81a538327af927da3e").
Proof.
  apply (hasha_empty_string_default (H := sample_runtime)).
  exact sample_runtime_sha512.
Defined.


(** ** The dispatcher and the registry *)

Section SystemProperties.

Context `{Runtime}.

Lemma worker_onMessage_id (m : request) : res_id (worker_onMessage m) = req_id m.
Proof.
  unfold worker_onMessage. destruct (handlers (req_method m)) as [h|]; [|done].
  by destruct (h _ _).
Qed.

(** The listener on a response whose task is registered. *)
Lemma receive_registered (m : response) (rest : list response) (s : state) (t : task) :
  tasks s !! res_id m = Some t ->
  receive m rest s =
    State (if decide (size (delete (res_id m) (tasks s)) = 0)
           then unref (worker s) else worker s)
          (taskIdCounter s) (delete (res_id m) (tasks s)) (inbox s) rest
          (calls s ++ [(task_promise t, settlement_of (res_payload m))])
          (created s) (sent s) None.
Proof.
  intros Ht. unfold receive, onMessage. simpl. rewrite Ht.
  by destruct (res_payload m).
Qed.

Lemma invariant_initial : invariant initial.
Proof.
  split; simpl; try done.
  all: intros; repeat match goal with
                      | Hin : _ ∈ [] |- _ => by apply elem_of_nil in Hin
                      end.
Qed.

Lemma in_flight_pos_inbox (s : state) (m : request) :
  m ∈ inbox s -> 0 < in_flight s (req_id m).
Proof.
  intros Hin. unfold in_flight.
  assert (In (req_id m) (map req_id (inbox s))) as Hi.
  { apply in_map. by apply list_elem_of_In. }
  apply (count_occ_In Nat.eq_dec) in Hi. lia.
Qed.

Lemma in_flight_pos_outbox (s : state) (r : response) :
  r ∈ outbox s -> 0 < in_flight s (res_id r).
Proof.
  intros Hin. unfold in_flight.
  assert (In (res_id r) (map res_id (outbox s))) as Hi.
  { apply in_map. by apply list_elem_of_In. }
  apply (count_occ_In Nat.eq_dec) in Hi. lia.
Qed.

(** A response in flight belongs to a registered task. *)
Lemma outbox_registered (s : state) (r : response) :
  invariant s -> r ∈ outbox s ->
  tasks s !! res_id r = Some (Task (res_id r)) /\
  in_flight s (res_id r) = 1 /\ settled s (res_id r) = 0 /\
  res_id r < taskIdCounter s.
Proof.
  intros Hinv Hin. pose proof (in_flight_pos_outbox _ _ Hin) as Hpos.
  pose proof (inv_count _ Hinv (res_id r)) as Hc.
  pose proof (inv_tasks _ Hinv (res_id r)) as Ht.
  repeat case_decide; try lia. repeat split; try done; lia.
Qed.

Lemma taskWorker_unfold (method : string) (a : args) (s : state) :
  taskWorker method a s =
    State (Some true) (S (taskIdCounter s))
          (<[taskIdCounter s := Task (taskIdCounter s)]> (tasks s))
          (inbox s ++ [Request (taskIdCounter s) method a]) (outbox s) (calls s)
          (match worker s with
           | None => S (created s)
           | Some _ => created s
           end)
          (sent s ++ [Request (taskIdCounter s) method a]) (crashed s).
Proof. unfold taskWorker. by destruct (worker s). Qed.

Lemma invariant_taskWorker (method : string) (a : args) (s : state) :
  invariant s -> invariant (taskWorker method a s).
Proof.
  intros Hinv. rewrite taskWorker_unfold.
  assert (forall id,
    in_flight (State (Some true) (S (taskIdCounter s))
                 (<[taskIdCounter s := Task (taskIdCounter s)]> (tasks s))
                 (inbox s ++ [Request (taskIdCounter s) method a]) (outbox s)
                 (calls s)
                 (match worker s with
                  | None => S (created s)
                  | Some _ => created s
                  end)
                 (sent s ++ [Request (taskIdCounter s) method a]) (crashed s)) id
    = in_flight s id + (if decide (id = taskIdCounter s) then 1 else 0)) as Hfl.
  { intros id. unfold in_flight. simpl. rewrite map_app, count_occ_app. simpl.
    destruct (Nat.eq_dec (taskIdCounter s) id); case_decide; lia. }
  split.
  - intros id. rewrite Hfl. pose proof (inv_count _ Hinv id) as Hc.
    unfold settled in *. simpl. repeat case_decide; lia.
  - intros id. rewrite Hfl. simpl.
    pose proof (inv_count _ Hinv id) as Hc.
    pose proof (inv_tasks _ Hinv id) as Ht.
    rewrite lookup_insert.
    repeat case_decide; subst; try lia; done.
  - simpl. rewrite bool_decide_true; [done|]. apply insert_non_empty.
  - simpl. pose proof (inv_worker _ Hinv) as Hw.
    pose proof (inv_created _ Hinv) as Hcr.
    rewrite Hw, Hcr. by case_decide.
  - change (map req_id (sent s ++ [Request (taskIdCounter s) method a])
            = seq 0 (S (taskIdCounter s))).
    by rewrite map_app, (inv_sent _ Hinv), seq_S.
  - simpl. intros m Hm. apply elem_of_app in Hm as [Hm|Hm].
    + apply elem_of_app. left. by apply (inv_inbox _ Hinv).
    + apply elem_of_app. by right.
  - simpl. intros r Hr. destruct (inv_outbox _ Hinv r Hr) as (m & Hm & ->).
    exists m. split; [|done]. apply elem_of_app. by left.
  - simpl. intros id o Hc. destruct (inv_calls _ Hinv id o Hc) as (m & Hm & ?).
    exists m. split; [|done]. apply elem_of_app. by left.
Qed.

Lemma invariant_answer (s : state) (before after : list request) (m : request) :
  invariant s ->
  inbox s = before ++ m :: after ->
  invariant (with_queues s (before ++ after) (outbox s ++ [worker_onMessage m])).
Proof.
  intros Hinv Hinbox.
  assert (forall id,
    in_flight (with_queues s (before ++ after)
                 (outbox s ++ [worker_onMessage m])) id = in_flight s id) as Hfl.
  { intros id. unfold in_flight. simpl. rewrite Hinbox.
    rewrite !map_app, !count_occ_app. simpl.
    rewrite worker_onMessage_id.
    destruct (Nat.eq_dec (req_id m) id); lia. }
  split.
  - intros id. rewrite Hfl. apply (inv_count _ Hinv).
  - intros id. rewrite Hfl. apply (inv_tasks _ Hinv).
  - apply (inv_worker _ Hinv).
  - apply (inv_created _ Hinv).
  - apply (inv_sent _ Hinv).
  - simpl. intros m' Hm'. apply (inv_inbox _ Hinv). rewrite Hinbox.
    apply elem_of_app in Hm' as [Hm'|Hm']; apply elem_of_app; [by left|].
    right. by right.
  - simpl. intros r Hr. apply elem_of_app in Hr as [Hr|Hr].
    + by apply (inv_outbox _ Hinv).
    + apply list_elem_of_singleton in Hr as ->. exists m. split; [|done].
      apply (inv_inbox _ Hinv). rewrite Hinbox. apply elem_of_app. right. by left.
  - apply (inv_calls _ Hinv).
Qed.

Lemma invariant_receive (s : state) (m : response) (rest : list response) :
  invariant s ->
  outbox s = m :: rest ->
  invariant (receive m rest s).
Proof.
  intros Hinv Hout.
  assert (m ∈ outbox s) as Hin by (rewrite Hout; by left).
  destruct (outbox_registered _ _ Hinv Hin) as (Ht & Hfl1 & Hs0 & Hlt).
  rewrite (receive_registered _ _ _ _ Ht). simpl.
  assert (forall id,
    in_flight (State (if decide (size (delete (res_id m) (tasks s)) = 0)
                      then unref (worker s) else worker s)
                 (taskIdCounter s) (delete (res_id m) (tasks s)) (inbox s) rest
                 (calls s ++ [(res_id m, settlement_of (res_payload m))])
                 (created s) (sent s) None) id
    + (if decide (id = res_id m) then 1 else 0) = in_flight s id) as Hfl.
  { intros id. unfold in_flight. simpl. rewrite Hout. simpl.
    destruct (Nat.eq_dec (res_id m) id); destruct (decide (id = res_id m)); lia. }
  assert (forall id,
    settled (State (if decide (size (delete (res_id m) (tasks s)) = 0)
                    then unref (worker s) else worker s)
               (taskIdCounter s) (delete (res_id m) (tasks s)) (inbox s) rest
               (calls s ++ [(res_id m, settlement_of (res_payload m))])
               (created s) (sent s) None) id
    = settled s id + (if decide (id = res_id m) then 1 else 0)) as Hse.
  { intros id. unfold settled. simpl. rewrite map_app, count_occ_app. simpl.
    destruct (Nat.eq_dec (res_id m) id); destruct (decide (id = res_id m)); lia. }
  split.
  - intros id. pose proof (Hfl id) as Hf. rewrite Hse.
    pose proof (inv_count _ Hinv id) as Hc. simpl.
    repeat case_decide; lia.
  - intros id. pose proof (Hfl id) as Hf. simpl.
    pose proof (inv_tasks _ Hinv id) as Hti.
    rewrite lookup_delete.
    repeat case_decide; subst; try lia; done.
  - simpl. pose proof (inv_worker _ Hinv) as Hw.
    rewrite decide_False in Hw by lia.
    rewrite (decide_False (P := taskIdCounter s = 0)) by lia.
    assert (tasks s <> ∅) as Hne.
    { intros He. rewrite He in Ht. by rewrite lookup_empty in Ht. }
    rewrite bool_decide_true in Hw by done. rewrite Hw.
    case_decide as Hsize.
    + apply map_size_empty_iff in Hsize. rewrite Hsize. simpl.
      by rewrite bool_decide_false by (intros Hn; by apply Hn).
    + rewrite bool_decide_true; [done|].
      intros He. apply Hsize. by apply map_size_empty_iff.
  - apply (inv_created _ Hinv).
  - apply (inv_sent _ Hinv).
  - apply (inv_inbox _ Hinv).
  - simpl. intros r Hr. apply (inv_outbox _ Hinv). rewrite Hout. by right.
  - simpl. intros id o Hc. apply elem_of_app in Hc as [Hc|Hc].
    + by apply (inv_calls _ Hinv).
    + apply list_elem_of_singleton in Hc. injection Hc as -> ->.
      destruct (inv_outbox _ Hinv m Hin) as (req & Hreq & Hm).
      exists req. split; [done|]. rewrite Hm at 1.
      rewrite worker_onMessage_id. split; [done|]. by rewrite <- Hm.
Qed.

Lemma invariant_with_crashed (s : state) (e : option object) :
  invariant s -> invariant (with_crashed s e).
Proof. intros Hinv. split; apply Hinv. Qed.

Lemma invariant_step (s s' : state) :
  invariant s -> step s s' -> invariant s'.
Proof.
  intros Hinv Hstep. destruct Hstep.
  - by apply invariant_taskWorker.
  - by apply invariant_answer.
  - by apply invariant_receive.
  - by apply invariant_with_crashed.
Qed.

Lemma invariant_steps (s s' : state) :
  invariant s -> rtc step s s' -> invariant s'.
Proof.
  intros Hinv Hsteps. induction Hsteps as [|? ? ? Hstep _ IH]; [done|].
  apply IH. by eapply invariant_step.
Qed.

Lemma reachable_invariant (s : state) : reachable s -> invariant s.
Proof. apply invariant_steps, invariant_initial. Qed.

(** *** The scheduler [drain] *)

Lemma answer_all_steps (s : state) :
  crashed s = None -> rtc step s (answer_all s).
Proof.
  remember (inbox s) as l eqn:Hl. revert s Hl.
  induction l as [|m l IH]; intros s Hl Hc.
  - replace (answer_all s) with s; [done|].
    unfold answer_all, with_queues. rewrite <- Hl. simpl.
    rewrite app_nil_r. destruct s; simpl in *. by subst.
  - eapply rtc_l.
    + by apply (step_answer s [] m l).
    + replace (answer_all s)
        with (answer_all (with_queues s ([] ++ l) (outbox s ++ [worker_onMessage m]))).
      * by apply IH.
      * unfold answer_all, with_queues. simpl. rewrite <- Hl. simpl.
        by rewrite <- app_assoc.
Qed.

Lemma receive_all_steps (n : nat) (s : state) : rtc step s (receive_all n s).
Proof.
  revert s. induction n as [|n IH]; intros s; simpl; [done|].
  destruct (outbox s) as [|m rest] eqn:Hout; [done|].
  destruct (crashed s) as [e|] eqn:Hc; [done|].
  eapply rtc_l; [by apply step_receive|apply IH].
Qed.

Lemma receive_all_empties (n : nat) (s : state) :
  invariant s -> crashed s = None -> length (outbox s) <= n ->
  outbox (receive_all n s) = [] /\
  inbox (receive_all n s) = inbox s /\
  crashed (receive_all n s) = None /\
  taskIdCounter (receive_all n s) = taskIdCounter s.
Proof.
  revert s. induction n as [|n IH]; intros s Hinv Hc Hlen; simpl.
  - destruct (outbox s); [done|simpl in Hlen; lia].
  - destruct (outbox s) as [|m rest] eqn:Hout; [done|].
    rewrite Hc.
    assert (m ∈ outbox s) as Hin by (rewrite Hout; by left).
    destruct (outbox_registered _ _ Hinv Hin) as (Ht & _).
    pose proof (invariant_receive _ _ _ Hinv Hout) as Hinv'.
    rewrite (receive_registered _ _ _ _ Ht) in *.
    destruct (IH _ Hinv') as (? & ? & ? & ?); [done|simpl in *; lia|done].
Qed.

Lemma drain_steps (s : state) : crashed s = None -> rtc step s (drain s).
Proof.
  intros Hc. unfold drain. etrans; [by apply answer_all_steps|].
  apply receive_all_steps.
Qed.

Lemma drain_quiescent (s : state) :
  invariant s -> crashed s = None ->
  inbox (drain s) = [] /\ outbox (drain s) = [] /\ crashed (drain s) = None /\
  taskIdCounter (drain s) = taskIdCounter s.
Proof.
  intros Hinv Hc. unfold drain.
  assert (invariant (answer_all s)) as Hinv'.
  { eapply invariant_steps; [done|by apply answer_all_steps]. }
  destruct (receive_all_empties (length (outbox (answer_all s))) (answer_all s))
    as (? & ? & ? & ?); done.
Qed.

(** With nothing in flight every task has been settled. *)
Lemma quiescent_settled (s : state) (id : nat) :
  invariant s -> inbox s = [] -> outbox s = [] -> id < taskIdCounter s ->
  settled s id = 1 /\ tasks s !! id = None.
Proof.
  intros Hinv Hi Ho Hlt.
  pose proof (inv_count _ Hinv id) as Hc.
  pose proof (inv_tasks _ Hinv id) as Ht.
  assert (in_flight s id = 0) as Hfl by (unfold in_flight; by rewrite Hi, Ho).
  rewrite Hfl in *. rewrite decide_True in Hc by done. simpl in *. done.
Qed.

(** *** Requests are posted once and kept *)

Lemma sent_receive (m : response) (rest : list response) (s : state) :
  sent (receive m rest s) = sent s.
Proof.
  unfold receive, onMessage. simpl.
  by destruct (res_payload m), (tasks s !! res_id m).
Qed.

Lemma sent_step (s s' : state) :
  step s s' -> exists l, sent s' = sent s ++ l.
Proof.
  destruct 1.
  - rewrite taskWorker_unfold. simpl. by eexists.
  - exists []. by rewrite app_nil_r.
  - exists []. by rewrite app_nil_r, sent_receive.
  - exists []. by rewrite app_nil_r.
Qed.

Lemma sent_steps (s s' : state) (m : request) :
  rtc step s s' -> m ∈ sent s -> m ∈ sent s'.
Proof.
  induction 1 as [|? ? ? Hstep _ IH]; [done|].
  intros Hm. apply IH. destruct (sent_step _ _ Hstep) as [l ->].
  apply elem_of_app. by left.
Qed.

Lemma request_unique (s : state) (m m' : request) :
  invariant s -> m ∈ sent s -> m' ∈ sent s -> req_id m = req_id m' -> m = m'.
Proof.
  intros Hinv. pose proof (inv_sent _ Hinv) as Hs.
  assert (NoDup (map req_id (sent s))) as Hnd by (rewrite Hs; apply NoDup_seq).
  clear Hs. induction (sent s) as [|r l IH]; intros Hm Hm' Heq.
  - by apply elem_of_nil in Hm.
  - simpl in Hnd. inversion_clear Hnd as [|? ? Hr Hl].
    apply elem_of_cons in Hm as [->|Hm];
      apply elem_of_cons in Hm' as [->|Hm']; try done.
    + exfalso. apply Hr. rewrite Heq. apply list_elem_of_fmap. by exists m'.
    + exfalso. apply Hr. rewrite <- Heq. apply list_elem_of_fmap. by exists m.
    + by apply IH.
Qed.

Lemma settled_elem (s : state) (id : nat) :
  0 < settled s id -> exists o, (id, o) ∈ calls s.
Proof.
  unfold settled. intros Hpos.
  apply (count_occ_In Nat.eq_dec) in Hpos.
  apply in_map_iff in Hpos as [[id' o] [Heq Hin]]. simpl in Heq. subst.
  exists o. by apply list_elem_of_In.
Qed.

End SystemProperties.

Section SystemTheorems.

Context `{Runtime}.

Lemma worker_receive (m : response) (rest : list response) (s : state) :
  worker (receive m rest s) =
    if decide (size (delete (res_id m) (tasks s)) = 0)
    then unref (worker s) else worker s.
Proof.
  unfold receive, onMessage. simpl.
  by destruct (res_payload m), (tasks s !! res_id m).
Qed.

Lemma worker_kept (s s' : state) :
  rtc step s s' -> worker s <> None -> worker s' <> None.
Proof.
  induction 1 as [|s1 s2 s3 Hstep _ IH]; [done|].
  intros Hw. apply IH.
  destruct Hstep as [s0 method a Hc|s0 before m after Hc Hin
                    |s0 m rest Hc Hout|s0 e Hc Hwk].
  - by rewrite taskWorker_unfold.
  - done.
  - rewrite worker_receive. case_decide; [|done].
    by destruct (worker s0).
  - done.
Qed.

(** In the worker, the ['hash'] handler performs the updates of the
    synchronous path. *)
Lemma handler_hash_hasha (alg : string) (x : input) :
  alg <> "" ->
  hasha x (Options (Some alg) (Some "buffer"))
    = match handler_hash alg x with
      | inl b => inl (DBuffer b)
      | inr e => inr e
      end.
Proof.
  intros Halg. unfold hasha, handler_hash. simpl.
  rewrite decide_False by done.
  destruct (createHash alg) as [hash|e]; [|done].
  simpl. do 3 f_equal.
  destruct x as [p|ps]; simpl.
  - by rewrite update_bytes, hash_update_default.
  - by rewrite fold_update_bytes, fold_hash_update_bytes.
Qed.

Lemma hasha_async_result_hash (id : nat) (alg : string) (x : input) :
  supported alg -> alg <> "" ->
  hasha_async_result (Options (Some alg) (Some "buffer"))
    (settlement_of (res_payload (worker_onMessage (Request id "hash" (Args alg x)))))
  = hasha x (Options (Some alg) (Some "buffer")) /\
  exists b, hasha x (Options (Some alg) (Some "buffer")) = inl (DBuffer b).
Proof.
  intros [hash Hhash] Halg. rewrite handler_hash_hasha by done.
  unfold worker_onMessage. simpl.
  unfold handler_hash. rewrite Hhash. simpl. split; [done|by eexists].
Qed.

(** C1. A call [hasha.async(x, {algorithm: alg, encoding: "buffer"})]
    with a supported algorithm, made in any state of the module: however
    the worker and the caller interleave afterwards, a settlement of the
    call's promise makes the call return the buffer the synchronous
    [hasha(x, ...)] returns; and when the system runs on, the promise is
    settled. *)
Theorem hasha_async_equals_sync (s : state) (alg : string) (x : input) :
  reachable s -> crashed s = None ->
  supported alg -> ~ supported "" ->
  let opts := Options (Some alg) (Some "buffer") in
  let s1 := hasha_async_dispatch x opts s in
  (exists b, hasha x opts = inl (DBuffer b)) /\
  (forall s2 o, rtc step s1 s2 -> (taskIdCounter s, o) ∈ calls s2 ->
     hasha_async_result opts o = hasha x opts) /\
  rtc step s1 (drain s1) /\
  exists o, (taskIdCounter s, o) ∈ calls (drain s1) /\
            hasha_async_result opts o = hasha x opts.
Proof.
  intros Hreach Hc Hsup Hempty opts s1.
  assert (alg <> "") as Halg by (intros ->; done).
  assert (reachable s1) as Hreach1.
  { eapply rtc_r; [exact Hreach|]. by apply step_dispatch. }
  assert (Request (taskIdCounter s) "hash" (Args alg x) ∈ sent s1) as Hsent.
  { unfold s1, hasha_async_dispatch. rewrite taskWorker_unfold. simpl.
    apply elem_of_app. right. by left. }
  assert (forall s2 o, rtc step s1 s2 -> (taskIdCounter s, o) ∈ calls s2 ->
            hasha_async_result opts o = hasha x opts) as Hany.
  { intros s2 o Hsteps Hcall.
    assert (invariant s2) as Hinv2.
    { apply reachable_invariant. unfold reachable. by etrans. }
    destruct (inv_calls _ Hinv2 _ _ Hcall) as (m & Hm & Hid & ->).
    assert (m = Request (taskIdCounter s) "hash" (Args alg x)) as ->.
    { apply (request_unique s2); [done|done| |done]. by eapply sent_steps. }
    by apply hasha_async_result_hash. }
  split; [|split; [exact Hany|split]].
  - by apply (hasha_async_result_hash 0).
  - apply drain_steps. unfold s1, hasha_async_dispatch.
    by rewrite taskWorker_unfold.
  - assert (crashed s1 = None) as Hc1.
    { unfold s1, hasha_async_dispatch. by rewrite taskWorker_unfold. }
    pose proof (reachable_invariant _ Hreach1) as Hinv1.
    destruct (drain_quiescent _ Hinv1 Hc1) as (Hi & Ho & _ & Hcnt).
    assert (invariant (drain s1)) as Hinvd.
    { eapply invariant_steps; [exact Hinv1|by apply drain_steps]. }
    destruct (quiescent_settled (drain s1) (taskIdCounter s) Hinvd Hi Ho)
      as [Hset _].
    { rewrite Hcnt. unfold s1, hasha_async_dispatch.
      rewrite taskWorker_unfold. simpl. lia. }
    destruct (settled_elem (drain s1) (taskIdCounter s)) as [o Ho'];
      [lia|].
    exists o. split; [done|]. apply (Hany (drain s1)); [|done].
    by apply drain_steps.
Qed.


(** C4. In every state the module reaches, each task dispatched so far is
    either registered, with one message in flight and no callback invoked
    yet, or removed from the registry with exactly one callback
    invocation, a resolve or a reject; nothing else is registered or
    settled. Unless the process has ended on a worker fault, running on
    settles every task: afterwards each has exactly one invocation and the
    registry is empty. *)
Theorem tasks_settled_exactly_once (s : state) :
  reachable s ->
  (forall id, id < taskIdCounter s ->
     (settled s id = 0 /\ in_flight s id = 1 /\ tasks s !! id = Some (Task id)) \/
     (settled s id = 1 /\ in_flight s id = 0 /\ tasks s !! id = None)) /\
  (forall id, taskIdCounter s <= id -> settled s id = 0 /\ tasks s !! id = None) /\
  (crashed s = None ->
     rtc step s (drain s) /\ crashed (drain s) = None /\
     tasks (drain s) = ∅ /\
     forall id, id < taskIdCounter s -> settled (drain s) id = 1).
Proof.
  intros Hreach. pose proof (reachable_invariant _ Hreach) as Hinv.
  split; [|split].
  - intros id Hlt.
    pose proof (inv_count _ Hinv id) as Hc.
    pose proof (inv_tasks _ Hinv id) as Ht.
    rewrite decide_True in Hc by done.
    destruct (decide (in_flight s id = 0)) as [Hz|Hnz].
    + right. repeat split; [lia|done|done].
    + left. repeat split; [lia|lia|done].
  - intros id Hge.
    pose proof (inv_count _ Hinv id) as Hc.
    pose proof (inv_tasks _ Hinv id) as Ht.
    rewrite decide_False in Hc by lia.
    rewrite decide_True in Ht by lia. split; [lia|done].
  - intros Hc.
    destruct (drain_quiescent _ Hinv Hc) as (Hi & Ho & Hcd & Hcnt).
    assert (invariant (drain s)) as Hinvd.
    { eapply invariant_steps; [exact Hinv|by apply drain_steps]. }
    split; [by apply drain_steps|split; [done|split]].
    + apply map_eq. intros id. rewrite lookup_empty.
      rewrite (inv_tasks _ Hinvd id).
      rewrite decide_True; [done|]. unfold in_flight. by rewrite Hi, Ho.
    + intros id Hlt. apply quiescent_settled; try done. by rewrite Hcnt.
Qed.

(** C5. Before the first offloaded call there is no worker. A call to
    [taskWorker] leaves exactly one worker constructed, the one made by the
    first call, and leaves it referenced. Once there is a worker there
    always is one, and none is constructed again. When the caller receives
    a response, the worker is unreferenced exactly if the registry is then
    empty; in every state the worker is referenced exactly while tasks are
    registered. *)
Theorem worker_lifecycle (s : state) :
  reachable s ->
  (taskIdCounter s = 0 -> worker s = None /\ created s = 0) /\
  (forall method a,
     worker (taskWorker method a s) = Some true /\
     created (taskWorker method a s) = 1 /\
     (worker s <> None -> created (taskWorker method a s) = created s)) /\
  (forall s', rtc step s s' -> worker s <> None ->
     worker s' <> None /\ created s' = 1) /\
  (forall m rest, outbox s = m :: rest ->
     worker (receive m rest s)
       = Some (bool_decide (tasks (receive m rest s) <> ∅))) /\
  (forall b, worker s = Some b -> (b = true <-> tasks s <> ∅)).
Proof.
  intros Hreach. pose proof (reachable_invariant _ Hreach) as Hinv.
  pose proof (inv_worker _ Hinv) as Hw.
  pose proof (inv_created _ Hinv) as Hcr.
  split; [|split; [|split; [|split]]].
  - intros Hz. by rewrite Hw, Hcr, !decide_True.
  - intros method a. rewrite taskWorker_unfold. simpl.
    split; [done|]. rewrite Hw, Hcr. by case_decide.
  - intros s' Hsteps Hsome.
    assert (worker s' <> None) as Hsome' by (by eapply worker_kept).
    split; [done|].
    assert (invariant s') as Hinv' by (by eapply invariant_steps).
    pose proof (inv_worker _ Hinv') as Hw'.
    rewrite (inv_created _ Hinv'). by case_decide.
  - intros m rest Hout.
    pose proof (invariant_receive _ _ _ Hinv Hout) as Hinv'.
    assert (m ∈ outbox s) as Hin by (rewrite Hout; by left).
    destruct (outbox_registered _ _ Hinv Hin) as (Ht & _ & _ & Hlt).
    rewrite (inv_worker _ Hinv').
    rewrite (receive_registered _ _ _ _ Ht). simpl.
    rewrite decide_False; [done|lia].
  - intros b Hb. rewrite Hb in Hw. case_decide; [done|].
    injection Hw as ->. split.
    + intros Ht. by apply bool_decide_eq_true in Ht.
    + intros Ht. by apply bool_decide_eq_true.
Qed.

End SystemTheorems.

(** ** The example call *)

Lemma example_answered_reachable : reachable (H := sample_runtime) example_answered.
Proof.
  eapply rtc_l.
  - apply (step_dispatch (H := sample_runtime) initial "hash"
             (Args "sha512" (Single (PStr (js "ab"))))).
    reflexivity.
  - apply (answer_all_steps (H := sample_runtime) example_dispatched).
    reflexivity.
Qed.

Lemma sample_runtime_empty_name : ~ supported (H := sample_runtime) "".
Proof. intros [hash Hhash]. discriminate Hhash. Qed.

(** The first call of a process, with input ["ab"]. *)
Lemma hasha_async_equals_sync_sample :
  exists o,
    (0, o) ∈ calls (drain (H := sample_runtime) example_dispatched) /\
    hasha_async_result (H := sample_runtime)
      (Options (Some "sha512") (Some "buffer")) o
    = hasha (H := sample_runtime) (Single (PStr (js "ab")))
        (Options (Some "sha512") (Some "buffer")).
Proof.
  destruct (hasha_async_equals_sync (H := sample_runtime) initial "sha512"
              (Single (PStr (js "ab"))) (rtc_refl _ _) eq_refl
              (ex_intro _ [] eq_refl) sample_runtime_empty_name)
    as (_ & _ & _ & Hex).
  exact Hex.
Defined.



Lemma tasks_settled_exactly_once_sample :
  (settled example_answered 0 = 0 /\ in_flight example_answered 0 = 1 /\
   tasks example_answered !! 0 = Some (Task 0)) /\
  settled (drain (H := sample_runtime) example_answered) 0 = 1 /\
  tasks (drain (H := sample_runtime) example_answered) = ∅.
Proof.
  destruct (tasks_settled_exactly_once (H := sample_runtime) example_answered
              example_answered_reachable) as (Hnow & _ & Hthen).
  destruct (Hthen eq_refl) as (_ & _ & Hempty & Hall).
  split; [|split; [apply Hall; simpl; lia|exact Hempty]].
  destruct (Hnow 0) as [Hpending|(Hdone & _)]; [simpl; lia|exact Hpending|].
  discriminate Hdone.
Defined.

Lemma worker_lifecycle_sample :
  worker (taskWorker "hashFile" (Args "sha512" (Single (PStr (js "/tmp/f"))))
            example_answered) = Some true /\
  created (taskWorker "hashFile" (Args "sha512" (Single (PStr (js "/tmp/f"))))
             example_answered) = 1.
Proof.
  destruct (worker_lifecycle (H := sample_runtime) example_answered
              example_answered_reachable) as (_ & Hcall & _).
  destruct (Hcall "hashFile" (Args "sha512" (Single (PStr (js "/tmp/f")))))
    as (Hw & Hc & _).
  split; [exact Hw|exact Hc].
Defined.

(** * Further properties of the module *)

(** ** More on the error codec *)

Section CodecMore.

Context `{Runtime}.

Lemma encodeError_lookup_message (e : object) :
  oprops (encodeError e) !! "message" = Some (MkProp (get_prop e "message") true).
Proof.
  rewrite encodeError_lookup. simpl. unfold get_prop.
  destruct (oprops e !! "message") as [[v []]|] eqn:E;
    try case_decide; by simplify_map_eq.
Qed.

Lemma encodeError_lookup_stack (e : object) :
  oprops (encodeError e) !! "stack" = Some (MkProp (get_prop e "stack") true).
Proof.
  rewrite encodeError_lookup. simpl. unfold get_prop.
  destruct (oprops e !! "stack") as [[v []]|] eqn:E;
    try case_decide; by simplify_map_eq.
Qed.

(** The fields of the encoded error other than [message] and [stack]. *)
Lemma encodeError_lookup_other (e : object) (k : string) :
  k <> "message" -> k <> "stack" ->
  oprops (encodeError e) !! k =
    match oprops e !! k with
    | Some (MkProp v true) =>
        if decide (typeof v <> TObject) then Some (MkProp v true) else None
    | _ => None
    end.
Proof.
  intros Hm Hs. rewrite encodeError_lookup. simpl.
  destruct (oprops e !! k) as [[v []]|]; try case_decide; by simplify_map_eq.
Qed.

Lemma recreate_lookup_message (e : object) (m : string) :
  (forall s, ToString (VStr s) = s) ->
  get_prop e "message" = VStr m ->
  oprops (recreateWorkerError (encodeError e)) !! "message"
    = Some (MkProp (VStr m) false).
Proof.
  intros HtoString Hm.
  rewrite recreateWorkerError_lookup, construct_lookup.
  rewrite encodeError_message, Hm, HtoString. simpl.
  by destruct (oprops (encodeError e) !! "message") as [[v []]|].
Qed.

Lemma recreate_lookup_stack (e : object) :
  oprops (recreateWorkerError (encodeError e)) !! "stack"
    = Some (MkProp (get_prop e "stack") false).
Proof.
  by rewrite recreateWorkerError_lookup, encodeError_lookup_stack.
Qed.

Lemma recreate_lookup_other (e : object) (k : string) :
  k <> "message" -> k <> "stack" ->
  oprops (recreateWorkerError (encodeError e)) !! k =
    match oprops e !! k with
    | Some (MkProp v true) =>
        if decide (typeof v <> TObject) then Some (MkProp v true) else None
    | _ => None
    end.
Proof.
  intros Hm Hs.
  rewrite recreateWorkerError_lookup, construct_lookup.
  rewrite (encodeError_lookup_other e k Hm Hs).
  rewrite !(decide_False (P := k = "message")) by done.
  rewrite !(decide_False (P := k = "stack")) by done.
  destruct (oprops e !! k) as [[v []]|]; try done.
  case_decide; [|done]. simpl. by rewrite ?decide_False by done.
Qed.

(** What a rejection keeps of an error raised in the worker. *)
Lemma recreate_keeps (e : object) (m : string) :
  (forall s, ToString (VStr s) = s) ->
  get_prop e "message" = VStr m ->
  get_prop (recreateWorkerError (encodeError e)) "message" = VStr m /\
  forall k v, own_field e k v -> scalar v = true ->
    get_prop (recreateWorkerError (encodeError e)) k = v.
Proof.
  intros HtoString Hm.
  pose proof (recreate_lookup_message e m HtoString Hm) as Hmsg.
  split; [unfold get_prop; by rewrite Hmsg|].
  intros k v Hown Hscalar. unfold get_prop at 1.
  destruct (decide (k = "message")) as [->|Hk1].
  { rewrite Hmsg. simpl. unfold get_prop, own_field in *. by rewrite Hown in Hm. }
  destruct (decide (k = "stack")) as [->|Hk2].
  { rewrite recreate_lookup_stack. simpl. unfold get_prop, own_field in *.
    by rewrite Hown. }
  rewrite recreate_lookup_other by done. unfold own_field in Hown.
  rewrite Hown. rewrite decide_True; [done|]. by destruct v.
Qed.

(** X1. The stack of an error raised in the worker reaches the caller as
    it is, whatever the error. *)
Theorem codec_preserves_stack (e : object) :
  get_prop (recreateWorkerError (encodeError e)) "stack" = get_prop e "stack".
Proof. unfold get_prop at 1. by rewrite recreate_lookup_stack. Qed.

(** X2. The class of the error does not cross: whatever was raised in the
    worker, the caller gets an [Error], and unless the error carried an
    enumerable field [name] its [name] reads ["Error"]. *)
Theorem recreated_error_class (e : object) :
  (forall v, ~ own_field e "name" v) ->
  oproto (recreateWorkerError (encodeError e)) = ErrorProto /\
  get_prop (recreateWorkerError (encodeError e)) "name" = VStr "Error".
Proof.
  intros Hname.
  assert (oproto (recreateWorkerError (encodeError e)) = ErrorProto) as Hproto.
  { unfold recreateWorkerError. rewrite assign_proto.
    unfold construct. by destruct (get_prop (encodeError e) "message"). }
  split; [done|]. unfold get_prop. rewrite Hproto.
  rewrite recreate_lookup_other by done.
  destruct (oprops e !! "name") as [[v []]|] eqn:E; try done.
  exfalso. by apply (Hname v).
Qed.

(** X3. The recreated error has no field of its own making: besides
    [message] and [stack], each of its fields is an enumerable field of the
    error raised, with the same value, and that value is not of type
    ['object']. *)
Theorem recreated_fields_from_error (e : object) (k : string) (p : prop) :
  oprops (recreateWorkerError (encodeError e)) !! k = Some p ->
  k = "message" \/ k = "stack" \/
  (own_field e k (pvalue p) /\ typeof (pvalue p) <> TObject).
Proof.
  intros Hk.
  destruct (decide (k = "message")) as [->|Hk1]; [by left|].
  destruct (decide (k = "stack")) as [->|Hk2]; [by right; left|].
  right. right. rewrite recreate_lookup_other in Hk by done.
  unfold own_field.
  destruct (oprops e !! k) as [[v []]|]; try done.
  case_decide; [|done]. by injection Hk as <-.
Qed.

Lemma object_eq (a b : object) :
  oproto a = oproto b -> oprops a = oprops b -> a = b.
Proof. destruct a, b. simpl. by intros -> ->. Qed.

(** X4. Crossing the boundary a second time loses nothing more: encoding
    the recreated error gives the encoding of the error itself, for an
    error whose message is a string. *)
Theorem encodeError_recreate_fixpoint (e : object) (m : string) :
  (forall s, ToString (VStr s) = s) ->
  get_prop e "message" = VStr m ->
  encodeError (recreateWorkerError (encodeError e)) = encodeError e.
Proof.
  intros HtoString Hm. apply object_eq.
  - unfold encodeError. by rewrite !assign_proto.
  - apply map_eq. intros k.
    destruct (decide (k = "message")) as [->|Hk1].
    { rewrite !encodeError_lookup_message.
      destruct (recreate_keeps e m HtoString Hm) as [-> _]. by rewrite Hm. }
    destruct (decide (k = "stack")) as [->|Hk2].
    { rewrite !encodeError_lookup_stack. unfold get_prop at 1.
      by rewrite recreate_lookup_stack. }
    rewrite (encodeError_lookup_other _ k Hk1 Hk2).
    rewrite (recreate_lookup_other e k Hk1 Hk2).
    rewrite (encodeError_lookup_other e k Hk1 Hk2).
    destruct (oprops e !! k) as [[v []]|]; try done.
    case_decide as Hty; [|done]. by rewrite decide_True.
Qed.

End CodecMore.

(** ** The entry points compared *)

Section EntryPointProperties.

Context `{Runtime}.

Lemma or_else_default_to (o : option string) (d : string) :
  o <> Some "" -> or_else o d = default_to o d.
Proof.
  intros Ho. destruct o as [s|]; [|done]. simpl.
  rewrite decide_False; [done|]. by intros ->.
Qed.

(** The worker's answer does not depend on the id of the request. *)
Lemma worker_payload_id (id : nat) (method : string) (a : args) :
  res_payload (worker_onMessage (Request id method a))
  = res_payload (worker_onMessage (Request 0 method a)).
Proof.
  unfold worker_onMessage. simpl.
  destruct (handlers method) as [h|]; [|done].
  by destruct (h (arg_algorithm a) (arg_data a)).
Qed.

Lemma handler_hash_updates (alg : string) (x : input) :
  handler_hash alg x =
    match createHash alg with
    | inr e => inr e
    | inl hash =>
        inl (hdigest (match x with
                      | Parts parts => fold_left update parts hash
                      | Single p => update hash p
                      end))
    end.
Proof.
  unfold handler_hash. destruct (createHash alg) as [hash|e]; [|done].
  do 2 f_equal. destruct x as [p|ps].
  - by rewrite update_bytes, hash_update_default.
  - by rewrite fold_update_bytes, fold_hash_update_bytes.
Qed.

(** X5. With worker threads or on the calling thread, the digest is the
    same in every encoding: [hasha.async] returns what [hasha] returns for
    a supported algorithm, when neither option is the empty string. *)
Theorem hasha_async_offloaded_equals_hasha (x : input) (opts : options) :
  text_encoders_agree (default_to (encoding opts) "hex") ->
  algorithm opts <> Some "" -> encoding opts <> Some "" ->
  supported (default_to (algorithm opts) "sha512") ->
  hasha_async_offloaded x opts = hasha x opts.
Proof.
  intros Hagree Halg Henc [hash Hhash].
  unfold hasha_async_offloaded, hasha, worker_onMessage. simpl.
  rewrite handler_hash_updates.
  rewrite !or_else_default_to by done. rewrite Hhash. simpl.
  unfold hash_digest, buffer_toString.
  case_decide; [done|]. case_decide; [done|]. by rewrite Hagree.
Qed.

(** X6. For an algorithm the primitive rejects, [hasha] throws the
    primitive's error and [hasha.async] is rejected with what the codec
    makes of that same error: its message and its scalar fields are those
    of the error thrown. *)
Theorem hasha_async_unsupported (x : input) (opts : options) (alg m : string)
    (e : object) :
  (forall s, ToString (VStr s) = s) ->
  algorithm opts = Some alg -> alg <> "" ->
  createHash alg = inr e ->
  get_prop e "message" = VStr m ->
  hasha x opts = inr e /\
  hasha_async_offloaded x opts = inr (recreateWorkerError (encodeError e)) /\
  get_prop (recreateWorkerError (encodeError e)) "message" = VStr m /\
  forall k v, own_field e k v -> scalar v = true ->
    get_prop (recreateWorkerError (encodeError e)) k = v.
Proof.
  intros HtoString Hopt Halg Hcreate Hm.
  split; [|split; [|by apply recreate_keeps]].
  - unfold hasha. rewrite Hopt. simpl. rewrite decide_False by done.
    by rewrite Hcreate.
  - unfold hasha_async_offloaded, worker_onMessage. rewrite Hopt. simpl.
    unfold handler_hash. by rewrite Hcreate.
Qed.

(** X7. The two paths read an empty algorithm name differently: [hasha]
    takes [''] for a missing option and hashes with ['sha512'], while
    [hasha.async] passes [''] on to the worker, where the primitive rejects
    it. *)
Theorem hasha_async_empty_algorithm (x : input) (enc : option string) :
  supported "sha512" -> ~ supported "" ->
  (exists d, hasha x (Options (Some "") enc) = inl d) /\
  (exists e, hasha_async_offloaded x (Options (Some "") enc) = inr e).
Proof.
  intros [hash Hhash] Hempty. split.
  - unfold hasha. simpl. rewrite Hhash. by eexists.
  - unfold hasha_async_offloaded, worker_onMessage. simpl.
    unfold handler_hash.
    destruct (createHash "") as [h|e] eqn:E.
    + exfalso. apply Hempty. by exists h.
    + simpl. by eexists.
Qed.

(** X11. [hasha.fromStream] does not depend on how the source cuts its
    data into chunks. *)
Theorem fromStream_chunking (cs1 cs2 : list bytes) (err : option object)
    (opts : options) :
  streaming_hasher ->
  concat cs1 = concat cs2 ->
  fromStream (AStream (Stream cs1 err)) opts
  = fromStream (AStream (Stream cs2 err)) opts.
Proof.
  intros Hstream Heq. unfold fromStream, hasha_stream. simpl.
  destruct (createHash (or_else (algorithm opts) "sha512")) as [hash|e] eqn:E;
    [|done].
  destruct err; [done|]. do 2 f_equal. by apply (Hstream _ _ _ _ E).
Qed.

(** X12. Hashing a stream is hashing its content: for a source that ends,
    [hasha.fromStream] with a text encoding is fulfilled with what [hasha]
    returns for the buffer of everything the source delivered; for an
    algorithm the primitive rejects, both fail with the primitive's error. *)
Theorem fromStream_equals_hasha (cs : list bytes) (opts : options) :
  streaming_hasher ->
  stream_reads_text (default_to (encoding opts) "hex") ->
  text_encoders_agree (default_to (encoding opts) "hex") ->
  encoding opts <> Some "" -> encoding opts <> Some "buffer" ->
  fromStream (AStream (Stream cs None)) opts
  = hasha (Single (PBuf (concat cs))) opts.
Proof.
  intros Hstream Hreads Hagree Henc Hbuf.
  unfold fromStream, hasha_stream, hasha. simpl.
  rewrite !(or_else_default_to (encoding opts)) by done.
  destruct (createHash (or_else (algorithm opts) "sha512")) as [hash|e] eqn:E;
    [|done].
  assert (default_to (encoding opts) "hex" <> "buffer") as Hne.
  { destruct (encoding opts) as [s|]; simpl; [|done]. by intros ->. }
  rewrite !decide_False by done. rewrite Hreads.
  assert (hdigest (fold_left hupdate cs hash)
          = hdigest (update hash (PBuf (concat cs)))) as ->.
  { change (update hash (PBuf (concat cs)))
      with (fold_left hupdate [concat cs] hash).
    apply (Hstream _ _ _ _ E). simpl. by rewrite app_nil_r. }
  unfold hash_digest, buffer_toString. case_decide; [done|]. by rewrite Hagree.
Qed.

(** X13. A readable file hashes alike through the worker and
    synchronously: [hasha.fromFile] returns what [hasha.fromFileSync]
    returns, for a supported algorithm, when neither option is the empty
    string. *)
Theorem fromFile_offloaded_equals_fromFileSync (path : input) (opts : options) :
  streaming_hasher -> text_encoders_agree (default_to (encoding opts) "hex") ->
  algorithm opts <> Some "" -> encoding opts <> Some "" ->
  supported (default_to (algorithm opts) "sha512") ->
  stream_error (createReadStream path) = None ->
  hasha_fromFile_offloaded path opts = hasha_fromFileSync path opts.
Proof.
  intros Hstream Hagree Halg Henc [hash Hhash] Hread.
  unfold hasha_fromFile_offloaded, hasha_fromFileSync, readFileSync,
    worker_onMessage. simpl.
  unfold handler_hashFile, hasha. rewrite Hread.
  rewrite !or_else_default_to by done. rewrite Hhash. simpl.
  assert (hdigest (fold_left hupdate (stream_chunks (createReadStream path)) hash)
          = hdigest (hupdate hash (concat (stream_chunks (createReadStream path)))))
    as Hdigest.
  { change (hupdate hash (concat (stream_chunks (createReadStream path))))
      with (fold_left hupdate [concat (stream_chunks (createReadStream path))] hash).
    apply (Hstream _ _ _ _ Hhash). simpl. by rewrite app_nil_r. }
  unfold hash_digest, buffer_toString. rewrite Hdigest.
  case_decide; [done|]. case_decide; [done|]. by rewrite Hagree.
Qed.

(** X14. A file that cannot be read: [hasha.fromFileSync] throws the read
    error, and [hasha.fromFile] is rejected with an error that has its
    message and its scalar fields, such as [code] and [errno]. *)
Theorem fromFile_read_error (path : input) (opts : options) (e : object)
    (m : string) :
  (forall s, ToString (VStr s) = s) ->
  supported (default_to (algorithm opts) "sha512") ->
  stream_error (createReadStream path) = Some e ->
  get_prop e "message" = VStr m ->
  hasha_fromFileSync path opts = inr e /\
  hasha_fromFile_offloaded path opts = inr (recreateWorkerError (encodeError e)) /\
  get_prop (recreateWorkerError (encodeError e)) "message" = VStr m /\
  forall k v, own_field e k v -> scalar v = true ->
    get_prop (recreateWorkerError (encodeError e)) k = v.
Proof.
  intros HtoString [hash Hhash] Hread Hm.
  split; [|split; [|by apply recreate_keeps]].
  - unfold hasha_fromFileSync, readFileSync. by rewrite Hread.
  - unfold hasha_fromFile_offloaded, worker_onMessage. simpl.
    unfold handler_hashFile. by rewrite Hhash, Hread.
Qed.

(** X15. With or without worker threads [hasha.fromFile] gives the same
    text for a readable file: the worker's answer rendered by the caller is
    what the piped hash stream reads, for a supported algorithm and an
    encoding other than ['buffer'] and ['']. *)
Theorem fromFile_offloaded_equals_fallback (path : input) (opts : options) :
  stream_reads_text (default_to (encoding opts) "hex") ->
  algorithm opts <> Some "" ->
  encoding opts <> Some "" -> encoding opts <> Some "buffer" ->
  supported (default_to (algorithm opts) "sha512") ->
  stream_error (createReadStream path) = None ->
  hasha_fromFile_offloaded path opts = hasha_fromFile_fallback path opts.
Proof.
  intros Hreads Halg Henc Hbuf [hash Hhash] Hread.
  unfold hasha_fromFile_offloaded, hasha_fromFile_fallback, worker_onMessage.
  simpl. unfold handler_hashFile, hasha_stream.
  rewrite !or_else_default_to by done. rewrite Hhash, Hread. simpl.
  assert (default_to (encoding opts) "hex" <> "buffer") as Hne.
  { destruct (encoding opts) as [s|]; simpl; [|done]. by intros ->. }
  rewrite !decide_False by done. by rewrite Hreads.
Qed.

(** X16. A string is hashed as its UTF-8 bytes: replacing every string
    part by the buffer of its encoding changes nothing. *)
Theorem hasha_string_as_buffer (x : input) (opts : options) :
  hasha x opts
  = hasha (match x with
           | Single p => Single (PBuf (part_bytes p))
           | Parts ps => Parts (map (fun p => PBuf (part_bytes p)) ps)
           end) opts.
Proof.
  unfold hasha.
  destruct (createHash (or_else (algorithm opts) "sha512")) as [hash|e]; [|done].
  do 2 f_equal. destruct x as [p|ps].
  - by rewrite !update_bytes.
  - rewrite !fold_update_bytes. f_equal. rewrite map_map. simpl.
    by apply map_ext.
Qed.

End EntryPointProperties.

(** ** More on the registry *)

Section RegistryProperties.

Context `{Runtime}.

(** X8. Results are correlated by id alone: in whatever order the worker
    completes and the caller receives, a callback invoked for a task passes
    on the worker's answer to that task's own request. *)
Theorem settlement_from_own_request (s : state) (m : request) (o : settlement) :
  reachable s ->
  m ∈ sent s ->
  (req_id m, o) ∈ calls s ->
  o = settlement_of (res_payload (worker_onMessage m)).
Proof.
  intros Hreach Hm Hcall.
  pose proof (reachable_invariant _ Hreach) as Hinv.
  destruct (inv_calls _ Hinv _ _ Hcall) as (m' & Hm' & Hid & ->).
  by rewrite (request_unique s m m' Hinv Hm Hm').
Qed.

(** X9. Ids are handed out in order and never reused: the request posted by
    the i-th call of [taskWorker], counting from 0, carries the id [i], and
    [taskIdCounter] is the number of requests posted. *)
Theorem request_ids_in_order (s : state) (i : nat) (m : request) :
  reachable s ->
  sent s !! i = Some m ->
  req_id m = i /\ i < taskIdCounter s /\ length (sent s) = taskIdCounter s.
Proof.
  intros Hreach Hi.
  pose proof (inv_sent _ (reachable_invariant _ Hreach)) as Hsent.
  assert (length (sent s) = taskIdCounter s) as Hlen.
  { rewrite <- (length_map req_id), Hsent. apply length_seq. }
  assert (i < taskIdCounter s) as Hlt.
  { rewrite <- Hlen. by eapply lookup_lt_Some. }
  split; [|done].
  assert (map req_id (sent s) !! i = Some (req_id m)) as Hmap.
  { change (map req_id (sent s)) with (req_id <$> sent s).
    by rewrite list_lookup_fmap, Hi. }
  rewrite Hsent in Hmap. apply lookup_seq in Hmap. lia.
Qed.

(** X10. The registry holds exactly the tasks with a message in flight: an id
    is registered if and only if its request is with the worker or its
    response is on the way back. *)
Theorem registry_is_in_flight (s : state) (id : nat) :
  reachable s ->
  is_Some (tasks s !! id) <->
  (exists m, m ∈ inbox s /\ req_id m = id) \/
  (exists r, r ∈ outbox s /\ res_id r = id).
Proof.
  intros Hreach. pose proof (reachable_invariant _ Hreach) as Hinv.
  rewrite (inv_tasks _ Hinv id). split.
  - case_decide as Hfl; [by intros [? ?]|]. intros _.
    unfold in_flight in Hfl.
    destruct (count_occ Nat.eq_dec (map req_id (inbox s)) id) eqn:Hin.
    + right. assert (In id (map res_id (outbox s))) as Hi.
      { apply (count_occ_In Nat.eq_dec). lia. }
      apply in_map_iff in Hi as (r & Hr & Hi). exists r.
      split; [by apply list_elem_of_In|done].
    + left. assert (In id (map req_id (inbox s))) as Hi.
      { apply (count_occ_In Nat.eq_dec). lia. }
      apply in_map_iff in Hi as (m & Hm & Hi). exists m.
      split; [by apply list_elem_of_In|done].
  - intros [(m & Hm & <-)|(r & Hr & <-)].
    + pose proof (in_flight_pos_inbox _ _ Hm).
      rewrite decide_False by lia. by eexists.
    + pose proof (in_flight_pos_outbox _ _ Hr).
      rewrite decide_False by lia. by eexists.
Qed.

End RegistryProperties.

(** ** The further properties on the sample runtimes *)

Lemma file_runtime_streaming : streaming_hasher (H := file_runtime).
Proof.
  intros alg hash c1 c2 _ Heq. simpl.
  by rewrite !fold_left_app_concat, Heq.
Qed.

Lemma example_drained_reachable :
  reachable (H := sample_runtime) (drain (H := sample_runtime) example_dispatched).
Proof.
  eapply rtc_l.
  - apply (step_dispatch (H := sample_runtime) initial "hash"
             (Args "sha512" (Single (PStr (js "ab"))))).
    reflexivity.
  - apply (drain_steps (H := sample_runtime) example_dispatched). reflexivity.
Qed.

(** A [TypeError] raised in the worker arrives as an [Error]. *)
Lemma recreated_error_class_sample :
  oproto (recreateWorkerError (H := sample_runtime)
            (encodeError (new_TypeError (H := sample_runtime) "boom")))
    = ErrorProto /\
  get_prop (recreateWorkerError (H := sample_runtime)
              (encodeError (new_TypeError (H := sample_runtime) "boom"))) "name"
    = VStr "Error".
Proof.
  apply (recreated_error_class (H := sample_runtime)).
  intros v Hv. discriminate Hv.
Defined.

Lemma recreated_fields_from_error_sample :
  "code" = "message" \/ "code" = "stack" \/
  (own_field example_error "code" (VNum 42) /\ typeof (VNum 42) <> TObject).
Proof.
  apply (recreated_fields_from_error (H := sample_runtime) example_error
           "code" (MkProp (VNum 42) true)).
  reflexivity.
Defined.

Lemma encodeError_recreate_fixpoint_sample :
  encodeError (recreateWorkerError (H := sample_runtime) (encodeError example_error))
  = encodeError example_error.
Proof.
  apply (encodeError_recreate_fixpoint (H := sample_runtime) example_error "x").
  - intros s. reflexivity.
  - reflexivity.
Defined.

(** [hasha.async("ab")] and [hasha("ab")] with the default options. *)
Lemma hasha_async_offloaded_equals_hasha_sample :
  hasha_async_offloaded (H := sample_runtime) (Single (PStr (js "ab")))
    (Options None None)
  = hasha (H := sample_runtime) (Single (PStr (js "ab"))) (Options None None).
Proof.
  apply (hasha_async_offloaded_equals_hasha (H := sample_runtime)).
  - intros b. reflexivity.
  - discriminate.
  - discriminate.
  - exists []. reflexivity.
Defined.

Lemma hasha_async_unsupported_sample :
  hasha_async_offloaded (H := sample_runtime) (Single (PStr (js "ab")))
    (Options (Some "md5") None)
  = inr (recreateWorkerError (H := sample_runtime)
           (encodeError (sample_error "Digest method not supported" "ERR_DIGEST" 0))) /\
  get_prop (recreateWorkerError (H := sample_runtime)
              (encodeError (sample_error "Digest method not supported" "ERR_DIGEST" 0)))
           "code" = VStr "ERR_DIGEST".
Proof.
  destruct (hasha_async_unsupported (H := sample_runtime)
              (Single (PStr (js "ab"))) (Options (Some "md5") None) "md5"
              "Digest method not supported"
              (sample_error "Digest method not supported" "ERR_DIGEST" 0)
              (fun s => eq_refl) eq_refl ltac:(discriminate) eq_refl eq_refl)
    as (_ & Hasync & _ & Hfields).
  split; [exact Hasync|].
  apply (Hfields "code" (VStr "ERR_DIGEST")); reflexivity.
Defined.

Lemma hasha_async_empty_algorithm_sample :
  (exists d, hasha (H := sample_runtime) (Single (PStr (js "ab")))
               (Options (Some "") None) = inl d) /\
  (exists e, hasha_async_offloaded (H := sample_runtime) (Single (PStr (js "ab")))
               (Options (Some "") None) = inr e).
Proof.
  apply (hasha_async_empty_algorithm (H := sample_runtime)).
  - exists []. reflexivity.
  - exact sample_runtime_empty_name.
Defined.

Lemma settlement_from_own_request_sample :
  Resolved (SHA512.digest (utf8 (js "ab")))
  = settlement_of (H := sample_runtime)
      (res_payload (worker_onMessage (H := sample_runtime) example_request)).
Proof.
  apply (settlement_from_own_request (H := sample_runtime)
           (drain (H := sample_runtime) example_dispatched) example_request
           (Resolved (SHA512.digest (utf8 (js "ab"))))
           example_drained_reachable).
  - apply list_elem_of_here.
  - apply list_elem_of_here.
Defined.

Lemma request_ids_in_order_sample :
  req_id example_request = 0 /\ 0 < taskIdCounter example_answered /\
  length (sent example_answered) = taskIdCounter example_answered.
Proof.
  apply (request_ids_in_order (H := sample_runtime) example_answered 0
           example_request example_answered_reachable).
  reflexivity.
Defined.

Lemma registry_is_in_flight_sample :
  is_Some (tasks example_answered !! 0) <->
  (exists m, m ∈ inbox example_answered /\ req_id m = 0) \/
  (exists r, r ∈ outbox example_answered /\ res_id r = 0).
Proof.
  apply (registry_is_in_flight (H := sample_runtime) example_answered 0
           example_answered_reachable).
Defined.

Lemma fromStream_chunking_sample :
  fromStream (H := sample_runtime)
    (AStream (Stream [utf8 (js "hel"); utf8 (js "lo")] None)) (Options None None)
  = fromStream (H := sample_runtime)
      (AStream (Stream [utf8 (js "h"); utf8 (js "ello")] None)) (Options None None).
Proof.
  apply (fromStream_chunking (H := sample_runtime)).
  - exact sample_runtime_streaming.
  - reflexivity.
Defined.

Lemma fromFile_offloaded_equals_fromFileSync_sample :
  hasha_fromFile_offloaded (H := file_runtime) (Single (PStr (js "f")))
    (Options None None)
  = hasha_fromFileSync (H := file_runtime) (Single (PStr (js "f")))
      (Options None None).
Proof.
  apply (fromFile_offloaded_equals_fromFileSync (H := file_runtime)).
  - exact file_runtime_streaming.
  - intros b. reflexivity.
  - discriminate.
  - discriminate.
  - exists []. reflexivity.
  - reflexivity.
Defined.

(** A missing file: the caller sees the code [ENOENT]. *)
Lemma fromFile_read_error_sample :
  hasha_fromFileSync (H := sample_runtime) (Single (PStr (js "f")))
    (Options None None)
  = inr (sample_error "ENOENT: no such file or directory" "ENOENT" (-2)) /\
  get_prop (recreateWorkerError (H := sample_runtime)
              (encodeError (sample_error "ENOENT: no such file or directory"
                              "ENOENT" (-2)))) "code" = VStr "ENOENT".
Proof.
  destruct (fromFile_read_error (H := sample_runtime) (Single (PStr (js "f")))
              (Options None None)
              (sample_error "ENOENT: no such file or directory" "ENOENT" (-2))
              "ENOENT: no such file or directory"
              (fun s => eq_refl) (ex_intro _ [] eq_refl) eq_refl eq_refl)
    as (Hsync & _ & _ & Hfields).
  split; [exact Hsync|].
  apply (Hfields "code" (VStr "ENOENT")); reflexivity.
Defined.

Lemma fromFile_offloaded_equals_fallback_sample :
  hasha_fromFile_offloaded (H := file_runtime) (Single (PStr (js "f")))
    (Options None None)
  = hasha_fromFile_fallback (H := file_runtime) (Single (PStr (js "f")))
      (Options None None).
Proof.
  apply (fromFile_offloaded_equals_fallback (H := file_runtime)).
  - intros b. reflexivity.
  - discriminate.
  - discriminate.
  - discriminate.
  - exists []. reflexivity.
  - reflexivity.
Defined.

(** ["ab"] cut into ["a"] and ["b"]. *)
Lemma hasha_string_split_sample :
  hasha (H := sample_runtime) (Single (PStr (js "a" ++ js "b"))) (Options None None)
  = hasha (H := sample_runtime) (Parts [PStr (js "a"); PStr (js "b")])
      (Options None None).
Proof.
  apply (hasha_string_split (H := sample_runtime)).
  - exact sample_runtime_streaming.
  - reflexivity.
Defined.

Lemma fromStream_equals_hasha_sample :
  fromStream (H := sample_runtime)
    (AStream (Stream [utf8 (js "hel"); utf8 (js "lo")] None)) (Options None None)
  = hasha (H := sample_runtime)
      (Single (PBuf (concat [utf8 (js "hel"); utf8 (js "lo")]))) (Options None None).
Proof.
  apply (fromStream_equals_hasha (H := sample_runtime)).
  - exact sample_runtime_streaming.
  - intros b. reflexivity.
  - intros b. reflexivity.
  - discriminate.
  - discriminate.
Defined.
